(** * training_utils: a shallow embedding of [src/training_utils.py]

    The development follows the order of the Python module:
    [extract_floats], [data_load], [split_dataset], the overlap statistic of
    [plot_violin_and_statistics] and [get_huber_loss].

    Modelling conventions.
    - A Python [str] is a [string]; the regular-expression engine works on
      its list of characters.  Characters are code points below 256, among
      which the only decimal digits (class [\d]) are ['0'..'9'].
    - Numeric array entries are rationals ([Q]), as every finite double is;
      NaN and the infinities are not modelled.  Pixel values (0..4 and
      their quarters) are computed without rounding error; where the
      rounding of the code matters, in the overlap statistic, it is
      modelled ([Rounding], [Doubles]).
    - A 2D array is the list of its rows; a Python exception is a value of
      [exn] returned on the left of a sum. *)

From Stdlib Require Import String Ascii List Bool Arith ZArith QArith Qabs Lia.
From Stdlib Require Import Qround.
From Stdlib Require Import Permutation Sorted Lqa.
Import ListNotations.

Close Scope Q_scope.
Close Scope Z_scope.
Open Scope nat_scope.
Open Scope list_scope.

(** ** Regular expressions with Python's backtracking priorities *)

Module Re.

Definition str := list ascii.

(** The fragment of [re] syntax that the pattern of [extract_floats] uses. *)
Inductive regex : Type :=
| Cls (p : ascii -> bool)      (* one character of a class: [\d], [[-+]], [\.] *)
| Seq (a b : regex)            (* ab *)
| Alt (a b : regex)            (* a|b, left alternative first *)
| Opt (a : regex)              (* a?, greedy *)
| Star (a : regex)             (* a*, greedy *)
| Plus (a : regex).            (* a+, greedy *)

(** The words of a pattern, independently of any matching strategy. *)
Inductive matches : regex -> str -> Prop :=
| MCls p c : p c = true -> matches (Cls p) [c]
| MSeq a b u v : matches a u -> matches b v -> matches (Seq a b) (u ++ v)
| MAltL a b u : matches a u -> matches (Alt a b) u
| MAltR a b u : matches b u -> matches (Alt a b) u
| MOptN a : matches (Opt a) []
| MOptS a u : matches a u -> matches (Opt a) u
| MStarN a : matches (Star a) []
| MStarS a u v : matches a u -> matches (Star a) v -> matches (Star a) (u ++ v)
| MPlus a u v : matches a u -> matches (Star a) v -> matches (Plus a) (u ++ v).

(** Greedy iteration of a matcher [f]: every way of continuing after one
    more iteration is tried before stopping here.  An iteration that
    consumes nothing is not repeated. *)
Fixpoint iterate (f : str -> list str) (fuel : nat) (s : str) : list str :=
  match fuel with
  | O => [s]
  | S fuel' =>
      flat_map (fun t => if length t <? length s then iterate f fuel' t else [])
               (f s) ++ [s]
  end.

(** [run r s] lists the remainders of [s] after each way of matching [r]
    at the start of [s], in the order in which a backtracking matcher
    tries them. *)
Fixpoint run (r : regex) (s : str) : list str :=
  match r with
  | Cls p => match s with
             | c :: t => if p c then [t] else []
             | [] => []
             end
  | Seq a b => flat_map (run b) (run a s)
  | Alt a b => run a s ++ run b s
  | Opt a => run a s ++ [s]
  | Star a => iterate (run a) (length s) s
  | Plus a => flat_map (fun t => iterate (run a) (length t) t) (run a s)
  end.

(** The match found at the start of [s], as the number of characters it
    spans: the first success in priority order. *)
Definition match_len (r : regex) (s : str) : option nat :=
  match run r s with
  | rest :: _ => Some (length s - length rest)
  | [] => None
  end.

(** [re.findall] for a pattern without groups: scan from the left, emit
    the match found at the current position and resume after it, or move
    one character ahead when there is none.  (After an empty match the
    scan moves one character ahead as well.) *)
Fixpoint scan (r : regex) (fuel : nat) (s : str) : list str :=
  match fuel with
  | O => []
  | S fuel' =>
      match s with
      | [] => []
      | _ :: t =>
          match match_len r s with
          | Some n => firstn n s :: scan r fuel' (skipn (Nat.max 1 n) s)
          | None => scan r fuel' t
          end
      end
  end.

Definition findall (r : regex) (s : str) : list str :=
  scan r (length s) s.

End Re.

(** ** extract_floats *)

Definition is_digit (c : ascii) : bool :=
  let n := nat_of_ascii c in (48 <=? n) && (n <=? 57).

Definition is_sign (c : ascii) : bool :=
  Ascii.eqb c "-" || Ascii.eqb c "+".

Definition is_dot (c : ascii) : bool := Ascii.eqb c ".".

(** [\d*\.\d+] *)
Definition fraction_re : Re.regex :=
  Re.Seq (Re.Star (Re.Cls is_digit))
    (Re.Seq (Re.Cls is_dot) (Re.Plus (Re.Cls is_digit))).

(** The pattern [[-+]?\d*\.\d+|\d+]. *)
Definition float_re : Re.regex :=
  Re.Alt (Re.Seq (Re.Opt (Re.Cls is_sign)) fraction_re)
         (Re.Plus (Re.Cls is_digit)).

Definition extract_floats (s : string) : list string :=
  map string_of_list_ascii (Re.findall float_re (list_ascii_of_string s)).

(** *** A direct description of the pattern, used to reason about it *)

(** The remainder after the longest run of leading digits ([\d*], greedy). *)
Fixpoint drop_digits (s : Re.str) : Re.str :=
  match s with
  | c :: t => if is_digit c then drop_digits t else s
  | [] => []
  end.

(** The remainders that [p*] leaves, longest iteration first. *)
Fixpoint star_rests (p : ascii -> bool) (s : Re.str) : list Re.str :=
  match s with
  | c :: t => if p c then star_rests p t ++ [s] else [s]
  | [] => [[]]
  end.

(** All the remainders of [\d*\.\d+] at the start of [s]. *)
Definition fraction_rests (s : Re.str) : list Re.str :=
  match drop_digits s with
  | d :: c :: t => if is_dot d && is_digit c then star_rests is_digit t else []
  | _ => []
  end.

(** [\d*\.\d+] at the start of [s]: the remainder of the first success. *)
Definition fraction_at (s : Re.str) : option Re.str :=
  match drop_digits s with
  | d :: c :: t => if is_dot d && is_digit c then Some (drop_digits t) else None
  | _ => None
  end.

(** The whole pattern at the start of [s]: what is left after the match. *)
Definition float_at (s : Re.str) : option Re.str :=
  match s with
  | c :: t =>
      if is_sign c then fraction_at t
      else match fraction_at s with
           | Some r => Some r
           | None => if is_digit c then Some (drop_digits t) else None
           end
  | [] => None
  end.

(** The words of the pattern, spelled out. *)
Definition float_word (w : Re.str) : Prop :=
  (exists sg ds d fs,
      w = sg ++ ds ++ d :: fs
      /\ (sg = [] \/ exists c, sg = [c] /\ is_sign c = true)
      /\ forallb is_digit ds = true /\ is_dot d = true
      /\ fs <> [] /\ forallb is_digit fs = true)
  \/ (w <> [] /\ forallb is_digit w = true).

(** The input cut into the text between the matches and the matches. *)
Fixpoint interleave (gaps ms : list Re.str) : Re.str :=
  match gaps, ms with
  | g :: gs, m :: ms' => g ++ m ++ interleave gs ms'
  | g :: _, [] => g
  | [], _ => []
  end.

Definition has_digit (s : Re.str) : bool := existsb is_digit s.

Definition starts_with (p : ascii -> bool) (s : Re.str) : bool :=
  match s with
  | c :: _ => p c
  | [] => false
  end.

(** No digit follows, and no decimal point with a digit after it. *)
Definition no_number_ahead (s : Re.str) : bool :=
  negb (starts_with is_digit s)
  && negb (starts_with is_dot s && starts_with is_digit (tl s)).

Definition chars (s : string) : Re.str := list_ascii_of_string s.

(** ** Exceptions, results and the loader's effects *)

Inductive exn : Type :=
| UnboundLocalError   (* a local variable read before any assignment *)
| ValueError          (* shapes that do not broadcast or stack; empty reduction *)
| IndexError          (* an index past the end *)
| OSError.            (* a file that cannot be opened *)

Definition result (A : Type) : Type := (exn + A)%type.

Definition rbind {A B : Type} (r : result A) (k : A -> result B) : result B :=
  match r with
  | inl e => inl e
  | inr a => k a
  end.

Notation "x <-? r ;; k" := (rbind r (fun x => k))
  (at level 61, r at next level, right associativity).

(** Computations that draw from a random generator of state [G] and may
    raise. *)
Definition M (G A : Type) : Type := G -> result (A * G).

Definition ret {G A : Type} (a : A) : M G A := fun g => inr (a, g).

Definition bind {G A B : Type} (m : M G A) (k : A -> M G B) : M G B :=
  fun g => match m g with
           | inl e => inl e
           | inr (a, g') => k a g'
           end.

Definition lift {G A : Type} (r : result A) : M G A :=
  fun g => match r with
           | inl e => inl e
           | inr a => inr (a, g)
           end.

Notation "x <- m ;; k" := (bind m (fun x => k))
  (at level 61, m at next level, right associativity).

(** A [for] loop that updates the loop-carried variables [a]. *)
Fixpoint for_each {G A B : Type} (body : A -> B -> M G A) (a : A) (l : list B)
  : M G A :=
  match l with
  | [] => ret a
  | b :: t => a' <- body a b ;; for_each body a' t
  end.

(** The part of [np.random] the module calls. *)
Class RandomState (G : Type) : Type := {
  (** [np.random.randint(low, high, size=(h, w))] *)
  randint : Z -> Z -> nat * nat -> G -> list (list Z) * G;
  (** [np.random.permutation(x)] *)
  permutation : list nat -> G -> list nat * G;
  randint_shape : forall low high h w g,
    length (fst (randint low high (h, w) g)) = h
    /\ Forall (fun row => length row = w) (fst (randint low high (h, w) g));
  randint_range : forall low high size g,
    (low < high)%Z ->
    Forall (Forall (fun v => (low <= v < high)%Z)) (fst (randint low high size g));
  permutation_perm : forall x g, Permutation (fst (permutation x g)) x
}.

(** Conversions between floats and text, left abstract: [f"{alp:.3f}"],
    [f"{val}"] and [float(s)].  Every word of the pattern of
    [extract_floats] is a float literal, so [float] does not raise on the
    strings it is given here. *)
Class FloatText (F : Type) : Type := {
  format_3f : F -> string;
  format_default : F -> string;
  float : string -> F
}.

(** ** Arrays *)

Definition array2 : Type := list (list Q).         (* shape (h, w) *)
Definition array3 : Type := list (list (list Q)).  (* shape (h, w, 1) *)

Definition shape2 {A : Type} (a : list (list A)) : nat * nat :=
  (length a, length (hd [] a)).

(** [a[idx]] for an integer index array. *)
Fixpoint take {A : Type} (l : list A) (idx : list nat) : result (list A) :=
  match idx with
  | [] => inr []
  | i :: rest =>
      match nth_error l i with
      | Some a => r <-? take l rest ;; inr (a :: r)
      | None => inl IndexError
      end
  end.

(** [np.roll] along one axis: [offset = shift % (n or 1)], then the last
    [offset] entries come first. *)
Definition roll1 {A : Type} (shift : Z) (l : list A) : list A :=
  let n := length l in
  let offset := Z.to_nat (shift mod Z.of_nat (Nat.max n 1)) in
  skipn (n - offset) l ++ firstn (n - offset) l.

(** [np.roll(a, (dy, dx), axis=(0, 1))] *)
Definition roll {A : Type} (shift : Z * Z) (a : list (list A)) : list (list A) :=
  roll1 (fst shift) (map (roll1 (snd shift)) a).

(** [img[img > 0] = 1] *)
Definition binarize (img : array2) : array2 :=
  map (map (fun p : Q => if Qle_bool p 0 then p else 1%Q)) img.

(** [img / 4] *)
Definition quarter (img : array2) : array2 :=
  map (map (fun p : Q => (p / 4)%Q)) img.

(** The length two axes broadcast to, if they do. *)
Definition broadcast_dim (n m : nat) : option nat :=
  if n =? m then Some n
  else if n =? 1 then Some m
  else if m =? 1 then Some n
  else None.

Definition entry (a : array2) (i j : nat) : Q := nth j (nth i a []) 0%Q.

(** [a * b] with NumPy broadcasting of two 2D arrays. *)
Definition np_mul (a b : array2) : result array2 :=
  let '(h1, w1) := shape2 a in
  let '(h2, w2) := shape2 b in
  match broadcast_dim h1 h2, broadcast_dim w1 w2 with
  | Some h, Some w =>
      inr (map (fun i =>
             map (fun j =>
                    (entry a (if h1 =? 1 then 0 else i) (if w1 =? 1 then 0 else j)
                     * entry b (if h2 =? 1 then 0 else i) (if w2 =? 1 then 0 else j))%Q)
                 (seq 0 w))
             (seq 0 h))
  | _, _ => inl ValueError
  end.

(** [img.reshape((img.shape[0], img.shape[1], 1))] *)
Definition reshape_channel (img : array2) : array3 :=
  map (map (fun p => [p])) img.

(** [np.array(inputs)]: the images must all have one shape. *)
Definition np_array (inputs : list array3) : result (list array3) :=
  match inputs with
  | [] => inr []
  | a :: rest =>
      if forallb (fun b => let '(h, w) := shape2 b in
                           let '(h0, w0) := shape2 a in
                           (h =? h0) && (w =? w0)) rest
      then inr inputs else inl ValueError
  end.

(** ** data_load *)

(** An HDF5 file: its datasets in the order of [fin.keys()]. *)
Definition h5file : Type := list (string * array2).

Record filesystem : Type := {
  glob : string -> list string;          (* [glob.glob(pattern)] *)
  h5py_File : string -> option h5file    (* [h5py.File(f, "r")] *)
}.

(** The variables of [data_load] that its loops update. *)
Record locals (F : Type) : Type := {
  inputs : list array3;
  outputs : list F;
  shape : option (nat * nat * nat)       (* unbound until first assigned *)
}.
Arguments inputs {F}.
Arguments outputs {F}.
Arguments shape {F}.

Section DataLoad.
Context {F G : Type} `{FloatText F} `{RandomState G}.
Variable fs : filesystem.

Definition pattern (alp val : F) : string :=
  ("no_roll_data/dataset_tumble_" ++ format_3f alp ++ "_"
     ++ format_default val ++ ".h5")%string.

(** Lines 49-54: the pixel transformation of one image. *)
Definition transform (orientation scrambled : bool) (img : array2)
  : M G array2 :=
  if negb orientation then
    let img := binarize img in
    if scrambled then
      noise <- (fun g => inr (randint 1 5 (128, 128) g)) ;;
      prod <- lift (np_mul img (map (map inject_Z) noise)) ;;
      ret (quarter prod)
    else ret img
  else ret (quarter img).

(** The three images stored for one transformed image. *)
Definition triplet (img : array2) : list array3 :=
  let img := reshape_channel img in
  [img; roll (42, 42)%Z img; roll (120, 120)%Z img].

(** Lines 48-64: the body of the loop over the keys of a file. *)
Definition load_image (orientation scrambled : bool) (tumble : F)
    (v : locals F) (kv : string * array2) : M G (locals F) :=
  img <- transform orientation scrambled (snd kv) ;;
  ret {| inputs := inputs v ++ triplet img;
         outputs := outputs v ++ [tumble; tumble; tumble];
         shape := Some (fst (shape2 img), snd (shape2 img), 1) |}.

(** Lines 44-64: the body of the loop over the files. *)
Definition load_file (orientation scrambled : bool)
    (v : locals F) (f : string) : M G (locals F) :=
  first <- lift (match extract_floats f with
                 | s :: _ => inr s
                 | [] => inl IndexError
                 end) ;;
  let tumble := float first in
  fin <- lift (match h5py_File fs f with
               | Some fin => inr fin
               | None => inl OSError
               end) ;;
  for_each (load_image orientation scrambled tumble) v fin.

(** Lines 37-40: the paths that the globs return, in order. *)
Definition matched_files (alphas densities : list F) : list string :=
  flat_map (fun alp => flat_map (fun val => glob fs (pattern alp val)) densities)
           alphas.

(** Lines 37-69.  The sequences and the flags are given explicitly (the
    default arguments are not modelled); the counter [count], which is
    never read, is left out. *)
Definition data_load (alphas densities : list F) (orientation scrambled : bool)
  : M G (list array3 * list F * (nat * nat * nat)) :=
  let files := matched_files alphas densities in
  v <- for_each (load_file orientation scrambled)
         {| inputs := []; outputs := []; shape := None |} files ;;
  order <- (fun g => inr (permutation (seq 0 (length (outputs v))) g)) ;;
  x <- lift (imgs <-? np_array (inputs v) ;; take imgs order) ;;
  y <- lift (take (outputs v) order) ;;
  shp <- lift (match shape v with
               | Some s => inr s
               | None => inl UnboundLocalError
               end) ;;
  ret (x, y, shp).

(** The images read, each with the path of its file, in reading order. *)
Definition images_read (files : list string) : list (string * array2) :=
  flat_map (fun f => match h5py_File fs f with
                     | Some fin => map (fun kv => (f, snd kv)) fin
                     | None => []
                     end) files.

(** The label of the images of file [f]. *)
Definition label_of (f : string) : F :=
  float (hd EmptyString (extract_floats f)).

(** [base] is what [transform] can make of [raw]. *)
Definition transformed (orientation scrambled : bool) (raw base : array2)
  : Prop :=
  exists g g', transform orientation scrambled raw g = inr (base, g').

(** The samples one image contributes: the image and its two shifted
    copies, each with the label of the file. *)
Definition samples_of (f : string) (base : array2) : list (array3 * F) :=
  let img := reshape_channel base in
  let tumble := label_of f in
  [(img, tumble); (roll (42, 42)%Z img, tumble); (roll (120, 120)%Z img, tumble)].

End DataLoad.

(** Pixel values: every entry is (rationally) equal to one of [vals]. *)
Definition pixel_among (vals : list Q) (p : Q) : Prop :=
  Exists (fun v => (p == v)%Q) vals.

Definition pixels_among (vals : list Q) (img : array2) : Prop :=
  Forall (Forall (pixel_among vals)) img.

Definition pixels3_among (vals : list Q) (img : array3) : Prop :=
  Forall (Forall (Forall (pixel_among vals))) img.

(** A list of rows that is an [h] x [w] array. *)
Definition rect {A : Type} (h w : nat) (a : list (list A)) : Prop :=
  length a = h /\ Forall (fun row => length row = w) a.

(** Shapes that broadcast against the 128 x 128 noise array. *)
Definition broadcasts_128 (img : array2) : bool :=
  let '(h, w) := shape2 img in
  ((h =? 128) || (h =? 1)) && ((w =? 128) || (w =? 1)).

(** *** A small world to run the loader in *)

(** Floats named by their decimal text. *)
#[export] Instance text_floats : FloatText string :=
  {| format_3f := fun s => s; format_default := fun s => s; float := fun s => s |}.

(** A generator without state: [randint] always draws [low] and
    [permutation] reverses. *)
#[export] Instance fixed_draws : RandomState unit.
Proof.
  refine {| randint := fun low _ size _ =>
                         (repeat (repeat low (snd size)) (fst size), tt);
            permutation := fun x _ => (rev x, tt) |}.
  - intros low high h w g. cbn. split; [apply repeat_length|].
    apply Forall_forall. intros row Hrow.
    apply repeat_spec in Hrow. subst row. apply repeat_length.
  - intros low high size g Hlt. cbn.
    apply Forall_forall. intros row Hrow. apply repeat_spec in Hrow. subst row.
    apply Forall_forall. intros v Hv. apply repeat_spec in Hv. subst v. lia.
  - intros x g. cbn. apply Permutation_sym, Permutation_rev.
Defined.

(** One data file with two 2 x 2 images. *)
Definition example_path : string := "no_roll_data/dataset_tumble_0.125_0.3.h5".

Definition example_fs : filesystem :=
  {| glob := fun p => if String.eqb p example_path then [p] else [];
     h5py_File := fun f =>
       if String.eqb f example_path
       then Some [("0"%string, [[0; 1]; [3; 4]]%Q); ("1"%string, [[2; 0]; [0; 1]]%Q)]
       else None |}.

(** ** split_dataset *)

(** A slice bound [i] of a sequence of length [n], as Python clips it. *)
Definition slice_index (n : nat) (i : Z) : nat :=
  if (i <? 0)%Z then Z.to_nat (Z.max 0 (i + Z.of_nat n))
  else Nat.min (Z.to_nat i) n.

(** [l[:stop]] and [l[start:]] *)
Definition slice_to {A : Type} (stop : Z) (l : list A) : list A :=
  firstn (slice_index (length l) stop) l.

Definition slice_from {A : Type} (start : Z) (l : list A) : list A :=
  skipn (slice_index (length l) start) l.

(** The four slices that [split_dataset] returns; what it prints is not
    modelled, and [last] (default 2000) is given explicitly. *)
Definition split_dataset {X Y : Type} (x : list X) (y : list Y) (last : Z)
  : list X * list Y * list X * list Y :=
  let x_train := slice_to (- last) x in
  let y_train := slice_to (- last) y in
  let x_val := slice_from (- last) x in
  let y_val := slice_from (- last) y in
  (x_train, y_train, x_val, y_val).

(** ** The overlap statistic of plot_violin_and_statistics *)

Fixpoint insert_sorted (v : Q) (l : list Q) : list Q :=
  match l with
  | [] => [v]
  | a :: t => if Qle_bool v a then v :: l else a :: insert_sorted v t
  end.

Fixpoint drop_repeats (l : list Q) : list Q :=
  match l with
  | a :: t =>
      match t with
      | b :: _ => if Qeq_bool a b then drop_repeats t else a :: drop_repeats t
      | [] => [a]
      end
  | [] => []
  end.

(** [np.unique]: the sorted values, one of each. *)
Definition np_unique (l : list Q) : list Q :=
  drop_repeats (fold_right insert_sorted [] l).

(** [np.where(actual == val)]: the positions that hold [val]. *)
Definition where_eq (actual : list Q) (val : Q) : list nat :=
  filter (fun i => Qeq_bool (nth i actual 0%Q) val) (seq 0 (length actual)).

Definition Qminb (a b : Q) : Q := if Qle_bool a b then a else b.
Definition Qmaxb (a b : Q) : Q := if Qle_bool a b then b else a.

(** [np.min] and [np.max]; both raise on an empty array. *)
Definition np_min (l : list Q) : result Q :=
  match l with
  | [] => inl ValueError
  | a :: t => inr (fold_left Qminb t a)
  end.

Definition np_max (l : list Q) : result Q :=
  match l with
  | [] => inl ValueError
  | a :: t => inr (fold_left Qmaxb t a)
  end.

Definition accuracy : Q := (1 # 1000)%Q.

(** [predictions[np.where(actual == val)]] when every position is in range. *)
Definition predictions_of (predictions actual : list Q) (val : Q) : list Q :=
  map (fun i => nth i predictions 0%Q) (where_eq actual val).

(** Lines 141-146 read in exact arithmetic: the overlap indicator of one
    label value with the tolerance 1/1000 and sums without rounding.  (The
    arithmetic of the code is in [Doubles.overlap_of] below.) *)
Definition overlap_of (predictions actual : list Q) (val : Q) : result bool :=
  predictions_mapped <-? take predictions (where_eq actual val) ;;
  lo <-? np_min predictions_mapped ;;
  hi <-? np_max predictions_mapped ;;
  inr (Qle_bool lo (val + accuracy) && Qle_bool (val - accuracy) hi).

Fixpoint map_result {A B : Type} (f : A -> result B) (l : list A)
  : result (list B) :=
  match l with
  | [] => inr []
  | a :: t => b <-? f a ;; r <-? map_result f t ;; inr (b :: r)
  end.

(** The list [overlap] that the loop of [plot_violin_and_statistics] builds
    (the plot, the standard deviations and the printed summary are not
    modelled). *)
Definition plot_violin_and_statistics (predictions actual : list Q)
  : result (list bool) :=
  map_result (overlap_of predictions actual) (np_unique actual).

(** ** get_huber_loss *)

Definition Qltb (a b : Q) : bool := negb (Qle_bool b a).

Definition squared_loss (error : Q) : Q := ((1 # 2) * (error * error))%Q.

Definition linear_loss (clip_delta error : Q) : Q :=
  (clip_delta * (Qabs error - (1 # 2) * clip_delta))%Q.

(** One entry of the loss. *)
Definition huber (clip_delta y_true y_pred : Q) : Q :=
  let error := (y_true - y_pred)%Q in
  let cond := Qltb (Qabs error) clip_delta in
  if cond then squared_loss error else linear_loss clip_delta error.

(** The loss of two tensors of one shape, entry by entry; [clip_delta]
    (default 1.0) is given explicitly. *)
Definition get_huber_loss (y_true y_pred : list Q) (clip_delta : Q) : list Q :=
  map (fun tp => huber clip_delta (fst tp) (snd tp)) (combine y_true y_pred).

(** ** Further definitions: separators, whole-text literals, predictions *)

(** A character that cannot belong to a match of the pattern. *)
Definition is_plain (c : ascii) : bool :=
  negb (is_digit c) && negb (is_sign c) && negb (is_dot c).

(** The pattern, tried at the start of the text, matches all of it. *)
Definition is_float_text (s : string) : bool :=
  match float_at (chars s) with
  | Some [] => true
  | _ => false
  end.

(** A loaded model, as [model.predict(x_val, verbose=0)] sees it: the
    prediction is given by its columns, that is as [prediction.T], one
    column per output unit and one entry per sample. *)
Definition model : Type := list array3 -> result (list (list Q)).

(** [prediction.T[0]] *)
Definition first_column (prediction_T : list (list Q)) : result (list Q) :=
  match prediction_T with
  | column :: _ => inr column
  | [] => inl IndexError
  end.

(** [np.concatenate] of a list of 1D arrays; it raises on an empty list. *)
Definition np_concatenate (arrays : list (list Q)) : result (list Q) :=
  match arrays with
  | [] => inl ValueError
  | _ :: _ => inr (concat arrays)
  end.

Section Predict.
(** [tf.keras.models.load_model(path)] *)
Variable load_model : string -> result model.

(** Lines 94-98: the loop of [predict_multi_by_name], which appends to
    [predictions] and [actual]. *)
Fixpoint predict_each (model_names : list string) (x_val : list array3)
    (y_val : list Q) (predictions actual : list (list Q))
  : result (list (list Q) * list (list Q)) :=
  match model_names with
  | [] => inr (predictions, actual)
  | name :: rest =>
      m <-? load_model ("models/" ++ name ++ ".keras")%string ;;
      prediction_T <-? m x_val ;;
      column <-? first_column prediction_T ;;
      predict_each rest x_val y_val (predictions ++ [column]) (actual ++ [y_val])
  end.

(** Lines 88-99. *)
Definition predict_multi_by_name (model_names : list string)
    (x_val : list array3) (y_val : list Q) : result (list Q * list Q) :=
  pa <-? predict_each model_names x_val y_val [] [] ;;
  p <-? np_concatenate (fst pa) ;;
  a <-? np_concatenate (snd pa) ;;
  inr (p, a).

End Predict.

(** A model that predicts one half for every sample, stored as
    [models/cnn.keras]; no other model file exists. *)
Definition example_model : model :=
  fun x_val => inr [map (fun _ => (1 # 2)%Q) x_val].

Definition example_models (path : string) : result model :=
  if String.eqb path "models/cnn.keras" then inr example_model else inl OSError.

(** ** The overlap statistic in double precision *)

(** Rounding of a real result to the nearest double.  All that is used of
    it is that it is monotone; the array entries are doubles, that is
    values that rounding leaves unchanged.  NaN and the infinities are not
    values of the model. *)
Class Rounding : Type := {
  rnd : Q -> Q;
  rnd_monotone : forall x y : Q, (x <= y)%Q -> (rnd x <= rnd y)%Q
}.


Module Doubles.

(** The double that the literal [1e-3] denotes: 1152921504606847 / 2^60,
    a little more than 1/1000. *)
Definition accuracy : Q := (1152921504606847 # 1152921504606846976)%Q.

Section Statistic.
Context `{Rounding}.

(** Lines 141-146 with the arithmetic of the code: [val + accuracy] and
    [val - accuracy] are the rounded sum and difference, and the
    comparisons are those of the doubles. *)
Definition overlap_of (predictions actual : list Q) (val : Q) : result bool :=
  predictions_mapped <-? take predictions (where_eq actual val) ;;
  lo <-? np_min predictions_mapped ;;
  hi <-? np_max predictions_mapped ;;
  inr (Qle_bool lo (rnd (val + accuracy))
       && Qle_bool (rnd (val - accuracy)) hi).

(** The list [overlap] of lines 137-146. *)
Definition plot_violin_and_statistics (predictions actual : list Q)
  : result (list bool) :=
  map_result (overlap_of predictions actual) (np_unique actual).

End Statistic.

End Doubles.

(** Rounding to the nearest multiple of 2^-53, which is rounding to the
    nearest double for results in [1/2, 1) (ties apart). *)
Definition grid_rounding : Rounding.
Proof.
  refine {| rnd := fun x =>
              (inject_Z (Qfloor (x * inject_Z (2 ^ 53) + (1 # 2)))
               / inject_Z (2 ^ 53))%Q |}.
  intros x y Hxy. apply Qmult_le_compat_r; [|discriminate].
  rewrite <- Zle_Qle. apply Qfloor_resp_le.
  apply Qplus_le_l. apply Qmult_le_compat_r; [exact Hxy|discriminate].
Defined.


(* ================================================================= *)
(** * Properties *)

(** ** The matcher *)

Section ReFacts.
Import Re.

Lemma iterate_sound (f : str -> list str) (a : regex) :
  (forall s rest, In rest (f s) -> exists w, s = w ++ rest /\ matches a w) ->
  forall fuel s rest, In rest (iterate f fuel s) ->
    exists w, s = w ++ rest /\ matches (Star a) w.
Proof.
  intros Hf fuel; induction fuel as [|fuel IH]; intros s rest Hin; simpl in Hin.
  - destruct Hin as [<-|[]]. exists []. split; [reflexivity|constructor].
  - apply in_app_or in Hin. destruct Hin as [Hin|[<-|[]]].
    + apply in_flat_map in Hin. destruct Hin as (t & Ht & Hin).
      destruct (length t <? length s); [|contradiction].
      destruct (Hf _ _ Ht) as (u & -> & Hu).
      destruct (IH _ _ Hin) as (v & -> & Hv).
      exists (u ++ v). split; [now rewrite app_assoc|now constructor].
    + exists []. split; [reflexivity|constructor].
Qed.

Lemma run_sound (r : regex) :
  forall s rest, In rest (run r s) -> exists w, s = w ++ rest /\ matches r w.
Proof.
  induction r as [p|a IHa b IHb|a IHa b IHb|a IHa|a IHa|a IHa];
    intros s rest Hin; simpl in Hin.
  - destruct s as [|c t]; [contradiction|].
    destruct (p c) eqn:Hp; [|contradiction].
    destruct Hin as [<-|[]]. exists [c]. split; [reflexivity|now constructor].
  - apply in_flat_map in Hin. destruct Hin as (t & Ht & Hin).
    destruct (IHa _ _ Ht) as (u & -> & Hu).
    destruct (IHb _ _ Hin) as (v & -> & Hv).
    exists (u ++ v). split; [now rewrite app_assoc|now constructor].
  - apply in_app_or in Hin. destruct Hin as [Hin|Hin].
    + destruct (IHa _ _ Hin) as (u & -> & Hu). exists u.
      split; [reflexivity|now apply MAltL].
    + destruct (IHb _ _ Hin) as (u & -> & Hu). exists u.
      split; [reflexivity|now apply MAltR].
  - apply in_app_or in Hin. destruct Hin as [Hin|[<-|[]]].
    + destruct (IHa _ _ Hin) as (u & -> & Hu). exists u.
      split; [reflexivity|now apply MOptS].
    + exists []. split; [reflexivity|constructor].
  - eapply iterate_sound; eauto.
  - apply in_flat_map in Hin. destruct Hin as (t & Ht & Hin).
    destruct (IHa _ _ Ht) as (u & -> & Hu).
    destruct (iterate_sound (run a) a IHa _ _ _ Hin) as (v & -> & Hv).
    exists (u ++ v). split; [now rewrite app_assoc|now constructor].
Qed.

(** What [match_len] reports is the length of a word of the pattern that
    starts the input. *)
Lemma match_len_sound (r : regex) (s : str) (n : nat) :
  match_len r s = Some n ->
  matches r (firstn n s) /\ n <= length s /\ s = firstn n s ++ skipn n s.
Proof.
  unfold match_len. destruct (run r s) as [|rest l] eqn:Hrun; [discriminate|].
  intros [= <-].
  destruct (run_sound r s rest) as (w & -> & Hw); [rewrite Hrun; now left|].
  rewrite length_app.
  replace (length w + length rest - length rest) with (length w) by lia.
  rewrite firstn_app, Nat.sub_diag, firstn_all, firstn_O, app_nil_r.
  rewrite skipn_app, Nat.sub_diag, skipn_all. simpl.
  repeat split; [assumption|lia].
Qed.

Lemma skipn_max_length (A : Type) (n : nat) (c : A) (t : list A) :
  length (skipn (Nat.max 1 n) (c :: t)) <= length t.
Proof.
  destruct n as [|n]; simpl; [lia|]. rewrite length_skipn. lia.
Qed.

(** The scan needs no more fuel than there are characters. *)
Lemma scan_fuel (r : regex) :
  forall fuel s, length s <= fuel -> scan r fuel s = findall r s.
Proof.
  unfold findall.
  intros fuel; induction fuel as [fuel IH] using lt_wf_ind; intros s Hle.
  destruct s as [|c t]; [destruct fuel; reflexivity|].
  destruct fuel as [|fuel]; [simpl in Hle; lia|].
  cbn [length scan]. simpl in Hle.
  destruct (match_len r (c :: t)) as [n|].
  - f_equal.
    pose proof (skipn_max_length _ n c t) as Hs.
    rewrite (IH fuel) by lia.
    symmetry. apply (IH (length t)); lia.
  - rewrite (IH fuel) by lia. reflexivity.
Qed.

Lemma findall_nil (r : regex) : findall r [] = [].
Proof. reflexivity. Qed.

Lemma findall_cons (r : regex) (c : ascii) (t : str) :
  findall r (c :: t) =
  match match_len r (c :: t) with
  | Some n => firstn n (c :: t) :: findall r (skipn (Nat.max 1 n) (c :: t))
  | None => findall r t
  end.
Proof.
  unfold findall at 1. cbn [length scan].
  destruct (match_len r (c :: t)) as [n|]; [|reflexivity].
  f_equal. apply scan_fuel. apply skipn_max_length.
Qed.

End ReFacts.

(** ** The pattern of [extract_floats] *)

Section FloatPattern.
Import Re.

Lemma digit_not_dot (c : ascii) : is_digit c = true -> is_dot c = false.
Proof.
  unfold is_dot. destruct (Ascii.eqb c ".") eqn:E; [|reflexivity].
  apply Ascii.eqb_eq in E. subst c. discriminate.
Qed.

Lemma digit_not_sign (c : ascii) : is_digit c = true -> is_sign c = false.
Proof.
  unfold is_sign. intros Hd.
  destruct (Ascii.eqb c "-") eqn:E1.
  { apply Ascii.eqb_eq in E1. subst c. discriminate. }
  destruct (Ascii.eqb c "+") eqn:E2; [|reflexivity].
  apply Ascii.eqb_eq in E2. subst c. discriminate.
Qed.

Lemma sign_not_dot (c : ascii) : is_sign c = true -> is_dot c = false.
Proof.
  unfold is_sign, is_dot. intros Hs.
  destruct (Ascii.eqb c ".") eqn:E; [|reflexivity].
  apply Ascii.eqb_eq in E. subst c. discriminate.
Qed.

Lemma sign_not_digit (c : ascii) : is_sign c = true -> is_digit c = false.
Proof.
  intros Hs. destruct (is_digit c) eqn:E; [|reflexivity].
  apply digit_not_sign in E. congruence.
Qed.

(** *** The engine on the pieces of the pattern *)

Lemma iterate_cls (p : ascii -> bool) :
  forall fuel s, length s <= fuel ->
    iterate (run (Cls p)) fuel s = star_rests p s.
Proof.
  induction fuel as [|fuel IH]; intros s Hle.
  - destruct s; [reflexivity|simpl in Hle; lia].
  - destruct s as [|c t]; [reflexivity|].
    simpl in Hle. cbn [iterate run star_rests].
    destruct (p c); [|reflexivity].
    cbn [flat_map]. rewrite app_nil_r.
    replace (length t <? length (c :: t)) with true
      by (symmetry; apply Nat.ltb_lt; simpl; lia).
    rewrite IH by lia. reflexivity.
Qed.

Lemma run_star_cls (p : ascii -> bool) (s : str) :
  run (Star (Cls p)) s = star_rests p s.
Proof. simpl. now apply iterate_cls. Qed.

Lemma run_plus_cls (p : ascii -> bool) (s : str) :
  run (Plus (Cls p)) s =
  match s with
  | c :: t => if p c then star_rests p t else []
  | [] => []
  end.
Proof.
  cbn [run]. destruct s as [|c t]; [reflexivity|].
  destruct (p c); [|reflexivity].
  cbn [flat_map]. rewrite app_nil_r. now apply iterate_cls.
Qed.

(** Greedy [\d*] first leaves what follows all the digits; every other
    remainder still starts with a digit. *)
Lemma star_rests_digit (s : str) :
  exists l, star_rests is_digit s = drop_digits s :: l
            /\ Forall (fun u => starts_with is_digit u = true) l.
Proof.
  induction s as [|c t IH]; simpl.
  - exists []. split; [reflexivity|constructor].
  - destruct (is_digit c) eqn:Hc.
    + destruct IH as (l & -> & Hl). exists (l ++ [c :: t]). split; [reflexivity|].
      apply Forall_app. split; [assumption|]. constructor; [exact Hc|constructor].
    + exists []. split; [reflexivity|constructor].
Qed.

Lemma run_dot_digits (u : str) :
  run (Seq (Cls is_dot) (Plus (Cls is_digit))) u =
  match u with
  | d :: c :: t => if is_dot d && is_digit c then star_rests is_digit t else []
  | _ => []
  end.
Proof.
  cbn [run]. fold (run (Plus (Cls is_digit))).
  destruct u as [|d v]; [reflexivity|].
  destruct (is_dot d); [|destruct v; reflexivity].
  cbn [flat_map]. rewrite app_nil_r.
  change (flat_map _ match v with [] => [] | c :: t => if is_digit c then [t] else [] end)
    with (run (Plus (Cls is_digit)) v).
  rewrite run_plus_cls. destruct v; reflexivity.
Qed.

Lemma run_fraction (s : str) : run fraction_re s = fraction_rests s.
Proof.
  unfold fraction_re, fraction_rests.
  change (run (Seq ?a ?b) s) with (flat_map (run b) (run a s)).
  rewrite run_star_cls.
  destruct (star_rests_digit s) as (l & -> & Hl).
  cbn [flat_map]. rewrite run_dot_digits.
  assert (flat_map (run (Seq (Cls is_dot) (Plus (Cls is_digit)))) l = []) as ->.
  { induction Hl as [|u l Hu Hl IH]; [reflexivity|].
    cbn [flat_map]. rewrite IH, run_dot_digits.
    destruct u as [|d [|c t]]; try reflexivity.
    simpl in Hu. now rewrite (digit_not_dot _ Hu). }
  now rewrite app_nil_r.
Qed.

Lemma fraction_rests_hd (s : str) :
  hd_error (fraction_rests s) = fraction_at s.
Proof.
  unfold fraction_rests, fraction_at.
  destruct (drop_digits s) as [|d [|c t]]; try reflexivity.
  destruct (is_dot d && is_digit c); [|reflexivity].
  now destruct (star_rests_digit t) as (l & -> & _).
Qed.

Lemma drop_digits_not_digit (s : str) :
  starts_with is_digit s = false -> drop_digits s = s.
Proof. destruct s as [|c t]; simpl; [reflexivity|]. now intros ->. Qed.

Lemma fraction_rests_sign (c : ascii) (t : str) :
  is_sign c = true -> fraction_rests (c :: t) = [].
Proof.
  intros Hs. unfold fraction_rests.
  rewrite drop_digits_not_digit by (simpl; now apply sign_not_digit).
  rewrite (sign_not_dot _ Hs). now destruct t.
Qed.

Lemma run_float_re (s : str) :
  run float_re s =
  match s with
  | c :: t =>
      if is_sign c then fraction_rests t
      else fraction_rests s ++ (if is_digit c then star_rests is_digit t else [])
  | [] => []
  end.
Proof.
  unfold float_re.
  change (run (Alt (Seq ?a fraction_re) ?b) s)
    with (flat_map (run fraction_re) (run a s) ++ run b s).
  rewrite run_plus_cls.
  destruct s as [|c t].
  - cbn [run flat_map app]. rewrite run_fraction. reflexivity.
  - cbn [run]. destruct (is_sign c) eqn:Hs.
    + cbn [flat_map app]. rewrite !run_fraction.
      rewrite (fraction_rests_sign _ _ Hs), (sign_not_digit _ Hs).
      now rewrite !app_nil_r.
    + cbn [flat_map app]. rewrite run_fraction. now rewrite app_nil_r.
Qed.

(** The engine and the direct description agree on the match found. *)
Lemma run_float_re_hd (s : str) : hd_error (run float_re s) = float_at s.
Proof.
  rewrite run_float_re. unfold float_at.
  destruct s as [|c t]; [reflexivity|].
  destruct (is_sign c); [apply fraction_rests_hd|].
  rewrite <- fraction_rests_hd.
  destruct (fraction_rests (c :: t)) as [|r l]; [|reflexivity].
  cbn [app hd_error]. destruct (is_digit c); [|reflexivity].
  now destruct (star_rests_digit t) as (l & -> & _).
Qed.

Lemma match_len_float_re (s : str) :
  match_len float_re s =
  option_map (fun r => length s - length r) (float_at s).
Proof.
  rewrite <- run_float_re_hd. unfold match_len.
  now destruct (run float_re s).
Qed.

End FloatPattern.

(** ** What [extract_floats] returns *)

Section ExtractFloats.
Import Re.

Lemma star_cls_forallb (p : ascii -> bool) (r : regex) (v : str) :
  matches r v -> r = Star (Cls p) -> forallb p v = true.
Proof.
  induction 1 as [| | | | | | |a u v Hu _ Hv IHv|]; intros E; try discriminate.
  - reflexivity.
  - injection E as ->. inversion Hu; subst.
    simpl. rewrite IHv by reflexivity. now rewrite H0.
Qed.

Lemma plus_cls_shape (p : ascii -> bool) (w : str) :
  matches (Plus (Cls p)) w -> w <> [] /\ forallb p w = true.
Proof.
  intros H. inversion H as [| | | | | | | |a u v Hu Hv]; subst.
  inversion Hu; subst. simpl. split; [discriminate|].
  rewrite (star_cls_forallb p _ _ Hv eq_refl). now rewrite H1.
Qed.

Lemma float_re_words (w : str) : matches float_re w -> float_word w.
Proof.
  intros H. unfold float_re, fraction_re in H.
  inversion H as [| |a b u Hl|a b u Hr| | | | |]; subst.
  - left. inversion Hl as [|a b sg v Hsg Hv| | | | | | |]; subst.
    inversion Hv as [|a b ds v' Hds Hv'| | | | | | |]; subst.
    inversion Hv' as [|a b d' fs Hd Hfs| | | | | | |]; subst.
    inversion Hd; subst.
    destruct (plus_cls_shape _ _ Hfs) as [Hne Hall].
    exists sg, ds, c, fs. repeat split; try assumption.
    + inversion Hsg as [| | | |a|a u Hc| | |]; subst; [now left|].
      inversion Hc; subst. right. eauto.
    + eapply star_cls_forallb; eauto.
  - right. now apply plus_cls_shape.
Qed.

Lemma forallb_digit_has_digit (w : str) :
  w <> [] -> forallb is_digit w = true -> has_digit w = true.
Proof.
  destruct w as [|c t]; [congruence|]. simpl.
  intros _ H. apply andb_true_iff in H. now rewrite (proj1 H).
Qed.

Lemma float_word_has_digit (w : str) : float_word w -> has_digit w = true.
Proof.
  unfold has_digit.
  intros [(sg & ds & d & fs & -> & _ & _ & _ & Hne & Hfs)|[Hne Hw]].
  - rewrite !existsb_app. simpl.
    pose proof (forallb_digit_has_digit fs Hne Hfs) as Hd.
    unfold has_digit in Hd. rewrite Hd.
    now rewrite !orb_true_r.
  - now apply forallb_digit_has_digit.
Qed.

Lemma float_word_sign_dot (w : str) :
  float_word w -> starts_with is_sign w = true -> existsb is_dot w = true.
Proof.
  intros [(sg & ds & d & fs & -> & _ & _ & Hd & _)|[Hne Hw]] Hs.
  - rewrite !existsb_app. simpl. rewrite Hd. now rewrite orb_true_r, orb_true_r.
  - destruct w as [|c t]; [discriminate|]. simpl in *.
    apply andb_true_iff in Hw. rewrite (digit_not_sign _ (proj1 Hw)) in Hs.
    discriminate.
Qed.

Lemma has_digit_app (u v : str) :
  has_digit (u ++ v) = has_digit u || has_digit v.
Proof. apply existsb_app. Qed.

(** A match is never empty, so the scan resumes right after it. *)
Lemma match_len_float_pos (s : str) (n : nat) :
  match_len float_re s = Some n ->
  1 <= n /\ matches float_re (firstn n s) /\ s = firstn n s ++ skipn n s.
Proof.
  intros H. destruct (match_len_sound _ _ _ H) as (Hw & Hn & Hs).
  repeat split; try assumption.
  destruct n; [|lia].
  apply float_re_words, float_word_has_digit in Hw. discriminate.
Qed.

(** A digit always starts a match. *)
Lemma float_at_digit (c : ascii) (t : str) :
  is_digit c = true -> float_at (c :: t) <> None.
Proof.
  intros Hc. unfold float_at. rewrite (digit_not_sign _ Hc), Hc.
  now destruct (fraction_at (c :: t)).
Qed.

Lemma match_len_none_not_digit (c : ascii) (t : str) :
  match_len float_re (c :: t) = None -> is_digit c = false.
Proof.
  rewrite match_len_float_re. intros H.
  destruct (is_digit c) eqn:Hc; [|reflexivity].
  pose proof (float_at_digit c t Hc).
  destruct (float_at (c :: t)); [discriminate|congruence].
Qed.

Lemma interleave_cons (g : str) (gs : list str) (m : str) (ms : list str) :
  interleave (g :: gs) (m :: ms) = g ++ m ++ interleave gs ms.
Proof. reflexivity. Qed.

Lemma findall_float_decomp :
  forall s, exists gaps,
    length gaps = S (length (findall float_re s))
    /\ interleave gaps (findall float_re s) = s
    /\ Forall (fun g => has_digit g = false) gaps
    /\ Forall (matches float_re) (findall float_re s).
Proof.
  intros s. remember (length s) as k eqn:Hk.
  revert s Hk. induction k as [k IH] using lt_wf_ind. intros s Hk.
  destruct s as [|c t].
  - exists [[]]. rewrite findall_nil. repeat split; auto.
  - rewrite findall_cons. destruct (match_len float_re (c :: t)) as [n|] eqn:Hm.
    + destruct (match_len_float_pos _ _ Hm) as (Hn & Hw & Hs).
      rewrite Nat.max_r by lia.
      destruct (IH (length (skipn n (c :: t)))) with (s := skipn n (c :: t))
        as (gaps & Hlen & Hcat & Hgaps & Hms); [|reflexivity|].
      { subst k. rewrite length_skipn. cbn [length]. lia. }
      exists ([] :: gaps). simpl length. repeat split.
      * now rewrite Hlen.
      * rewrite interleave_cons, Hcat. now symmetry.
      * constructor; [reflexivity|assumption].
      * constructor; assumption.
    + destruct (IH (length t)) with (s := t)
        as (gaps & Hlen & Hcat & Hgaps & Hms); [subst k; simpl; lia|reflexivity|].
      destruct gaps as [|g gs]; [discriminate|].
      exists ((c :: g) :: gs). repeat split.
      * exact Hlen.
      * destruct (findall float_re t); simpl in *; now rewrite Hcat.
      * inversion Hgaps; subst. constructor; [|assumption].
        unfold has_digit in *. simpl.
        rewrite (match_len_none_not_digit _ _ Hm). assumption.
      * assumption.
Qed.

Lemma findall_float_no_digit (s : str) :
  has_digit s = false -> findall float_re s = [].
Proof.
  intros H. destruct (findall_float_decomp s) as (gaps & Hlen & Hcat & _ & Hms).
  destruct (findall float_re s) as [|m ms]; [reflexivity|].
  exfalso. inversion Hms as [|? ? Hm _]; subst.
  apply float_re_words, float_word_has_digit in Hm.
  destruct gaps as [|g gs]; [discriminate|].
  rewrite interleave_cons in H.
  rewrite !has_digit_app, Hm in H. now rewrite orb_true_r in H.
Qed.

Lemma chars_string_of_list (l : str) : chars (string_of_list_ascii l) = l.
Proof. apply list_ascii_of_string_of_list_ascii. Qed.

Lemma chars_extract_floats (s : string) :
  map chars (extract_floats s) = findall float_re (chars s).
Proof.
  unfold extract_floats. rewrite map_map.
  rewrite (map_ext _ (fun x => x)) by apply chars_string_of_list.
  apply map_id.
Qed.

Lemma extract_floats_words (s : string) :
  Forall (fun m => matches float_re (chars m)) (extract_floats s).
Proof.
  destruct (findall_float_decomp (chars s)) as (_ & _ & _ & _ & Hms).
  rewrite <- chars_extract_floats in Hms.
  rewrite Forall_map in Hms. exact Hms.
Qed.

End ExtractFloats.

(** C2 (as the code has it).  [extract_floats] cuts its input into matches of
    the float pattern, left to right and without overlap: between two
    consecutive matches (and before the first, after the last) there is no
    digit, and since every word of the pattern contains a digit, no match is
    left out.  A string without digits gives the empty list.  On
    ["dataset_tumble_0.125_0.3.h5"] the result is ["0.125"], ["0.3"] and then
    ["5"], the digit of the extension. *)
Theorem extract_floats_scan (s : string) :
  (exists gaps,
      length gaps = S (length (extract_floats s))
      /\ interleave gaps (map chars (extract_floats s)) = chars s
      /\ Forall (fun g => has_digit g = false) gaps)
  /\ Forall (fun m => Re.matches float_re (chars m)) (extract_floats s)
  /\ (forall w, Re.matches float_re w -> has_digit w = true)
  /\ (has_digit (chars s) = false -> extract_floats s = [])
  /\ extract_floats "dataset_tumble_0.125_0.3.h5" = ["0.125"; "0.3"; "5"]%string.
Proof.
  destruct (findall_float_decomp (chars s)) as (gaps & Hlen & Hcat & Hgaps & Hms).
  rewrite <- chars_extract_floats in Hlen, Hcat, Hms.
  rewrite length_map in Hlen.
  split; [exists gaps; auto|].
  split; [apply extract_floats_words|].
  split; [intros w Hw; now apply float_word_has_digit, float_re_words|].
  split; [|vm_compute; reflexivity].
  intros Hnd. unfold extract_floats. fold (chars s).
  now rewrite findall_float_no_digit.
Qed.

Lemma extract_floats_scan_witness : extract_floats "no_roll_data/" = [].
Proof.
  apply (proj1 (proj2 (proj2 (proj2 (extract_floats_scan "no_roll_data/"))))).
  reflexivity.
Defined.

(** C2 (as stated) fails on its own example: the result has a third element. *)
Lemma extract_floats_example_refuted :
  extract_floats "dataset_tumble_0.125_0.3.h5" <> ["0.125"; "0.3"]%string.
Proof. vm_compute. discriminate. Qed.

(** ** Signs *)

Section Signs.
Import Re.

Lemma drop_digits_app (u v : str) :
  starts_with is_digit v = false ->
  drop_digits (u ++ v) = drop_digits u ++ v.
Proof.
  intros Hv. induction u as [|c t IH]; simpl.
  - now apply drop_digits_not_digit.
  - destruct (is_digit c); [exact IH|reflexivity].
Qed.

Lemma drop_digits_all (ds rest : str) :
  forallb is_digit ds = true -> starts_with is_digit rest = false ->
  drop_digits (ds ++ rest) = rest.
Proof.
  intros Hds Hr. induction ds as [|c t IH]; simpl in *.
  - now apply drop_digits_not_digit.
  - apply andb_true_iff in Hds. destruct Hds as [-> Ht]. auto.
Qed.

(** A character that is neither a digit nor a point stops every match
    that starts before it. *)
Lemma fraction_at_barrier (u : str) (b : ascii) (tl : str) :
  is_digit b = false -> is_dot b = false ->
  fraction_at (u ++ b :: tl) = option_map (fun r => r ++ b :: tl) (fraction_at u).
Proof.
  intros Hd Hp. unfold fraction_at.
  rewrite drop_digits_app by exact Hd.
  destruct (drop_digits u) as [|d [|c t]]; cbn [app option_map].
  - rewrite Hp. now destruct tl.
  - rewrite Hd. now rewrite andb_false_r.
  - destruct (is_dot d && is_digit c); [|reflexivity].
    cbn [option_map]. now rewrite drop_digits_app by exact Hd.
Qed.

Lemma float_at_barrier (u : str) (b : ascii) (tl : str) :
  u <> [] -> is_digit b = false -> is_dot b = false ->
  float_at (u ++ b :: tl) = option_map (fun r => r ++ b :: tl) (float_at u).
Proof.
  intros Hu Hd Hp. destruct u as [|c t]; [congruence|].
  cbn [app float_at]. destruct (is_sign c).
  - now apply fraction_at_barrier.
  - change (c :: t ++ b :: tl) with ((c :: t) ++ b :: tl).
    rewrite fraction_at_barrier by assumption.
    destruct (fraction_at (c :: t)); [reflexivity|].
    cbn [option_map]. destruct (is_digit c); [|reflexivity].
    cbn [option_map]. now rewrite drop_digits_app by exact Hd.
Qed.

Lemma float_at_suffix (s r : str) :
  float_at s = Some r -> length r <= length s.
Proof.
  rewrite <- run_float_re_hd. intros H.
  destruct (run float_re s) as [|r' l] eqn:Hrun; [discriminate|].
  injection H as ->.
  destruct (run_sound float_re s r) as (w & -> & _); [rewrite Hrun; now left|].
  rewrite length_app. lia.
Qed.

Lemma findall_float_barrier (b : ascii) (tl : str) :
  is_digit b = false -> is_dot b = false ->
  forall u, findall float_re (u ++ b :: tl)
            = findall float_re u ++ findall float_re (b :: tl).
Proof.
  intros Hd Hp u. remember (length u) as k eqn:Hk.
  revert u Hk. induction k as [k IH] using lt_wf_ind. intros u Hk.
  destruct u as [|c t]; [reflexivity|].
  change ((c :: t) ++ b :: tl) with (c :: (t ++ b :: tl)).
  rewrite (findall_cons _ c (t ++ b :: tl)), (findall_cons _ c t).
  change (c :: (t ++ b :: tl)) with ((c :: t) ++ b :: tl).
  rewrite !match_len_float_re, float_at_barrier by (assumption || discriminate).
  destruct (float_at (c :: t)) as [r|] eqn:Hr; cbn [option_map].
  - pose proof (float_at_suffix _ _ Hr) as Hle.
    rewrite !length_app. cbn [length] in *.
    replace (S (length t) + S (length tl) - (length r + S (length tl)))
      with (S (length t) - length r) by lia.
    set (n := S (length t) - length r).
    rewrite firstn_app.
    replace (n - length (c :: t)) with 0 by (cbn [length]; lia).
    rewrite firstn_O, app_nil_r.
    rewrite skipn_app.
    replace (Nat.max 1 n - length (c :: t)) with 0 by (cbn [length]; lia).
    rewrite skipn_O. cbn [app]. f_equal.
    apply (IH (length (skipn (Nat.max 1 n) (c :: t)))); [|reflexivity].
    subst k. pose proof (skipn_max_length _ n c t). cbn [length]. lia.
  - apply (IH (length t)); [subst k; simpl; lia|reflexivity].
Qed.

Lemma fraction_at_digits_only (ds rest : str) :
  forallb is_digit ds = true -> no_number_ahead rest = true ->
  fraction_at (ds ++ rest) = None.
Proof.
  unfold no_number_ahead. intros Hds Hr.
  apply andb_true_iff in Hr. destruct Hr as [H1 H2].
  apply negb_true_iff in H1, H2.
  unfold fraction_at. rewrite drop_digits_all by assumption.
  destruct rest as [|d [|c t]]; try reflexivity.
  simpl in H2. now rewrite H2.
Qed.

(** A signed integer: the sign is passed over and the digits are matched
    on their own. *)
Lemma findall_signed_integer (sg : ascii) (ds rest : str) :
  is_sign sg = true -> ds <> [] -> forallb is_digit ds = true ->
  no_number_ahead rest = true ->
  findall float_re (sg :: ds ++ rest) = ds :: findall float_re rest.
Proof.
  intros Hs Hne Hds Hr.
  rewrite findall_cons, match_len_float_re. cbn [float_at]. rewrite Hs.
  rewrite fraction_at_digits_only by assumption. cbn [option_map].
  destruct ds as [|c ds']; [congruence|].
  change ((c :: ds') ++ rest) with (c :: (ds' ++ rest)).
  rewrite findall_cons, match_len_float_re. cbn [float_at].
  change (c :: (ds' ++ rest)) with ((c :: ds') ++ rest).
  assert (is_digit c = true) as Hc
    by (cbn [forallb] in Hds; now apply andb_true_iff in Hds).
  rewrite (digit_not_sign _ Hc), Hc.
  rewrite fraction_at_digits_only by assumption.
  cbn [forallb] in Hds. apply andb_true_iff in Hds. destruct Hds as [_ Hds'].
  assert (starts_with is_digit rest = false) as Hnd.
  { unfold no_number_ahead in Hr. apply andb_true_iff in Hr.
    now apply negb_true_iff, (proj1 Hr). }
  rewrite drop_digits_all by assumption. cbn [option_map].
  rewrite length_app.
  replace (length (c :: ds') + length rest - length rest)
    with (length (c :: ds')) by lia.
  rewrite firstn_app, Nat.sub_diag, firstn_all, firstn_O, app_nil_r.
  f_equal. rewrite Nat.max_r by (cbn [length]; lia).
  now rewrite skipn_app, Nat.sub_diag, skipn_all, skipn_O.
Qed.

Lemma chars_append (a b : string) : chars (a ++ b)%string = chars a ++ chars b.
Proof. induction a as [|c a IH]; simpl; [reflexivity|]. now rewrite <- IH. Qed.

End Signs.

(** C10.  When a sign is followed by digits and then neither by a digit nor
    by a decimal point with a digit after it, [extract_floats] passes over
    the sign and returns the digits alone, whatever stands before the sign;
    and any returned match that does start with a sign contains a decimal
    point.  For ["-5"] the result is ["5"]. *)
Theorem extract_floats_unsigned_integer
    (pre : string) (sg : ascii) (ds rest : string) :
  is_sign sg = true ->
  ds <> ""%string -> forallb is_digit (chars ds) = true ->
  no_number_ahead (chars rest) = true ->
  extract_floats (pre ++ String sg (ds ++ rest))
    = extract_floats pre ++ ds :: extract_floats rest
  /\ (forall s m, In m (extract_floats s) ->
        starts_with is_sign (chars m) = true -> existsb is_dot (chars m) = true)
  /\ extract_floats "-5" = ["5"%string].
Proof.
  intros Hs Hne Hds Hr. split; [|split; [|reflexivity]].
  - unfold extract_floats. fold (chars (pre ++ String sg (ds ++ rest))).
    rewrite chars_append. cbn [chars list_ascii_of_string].
    fold (chars (ds ++ rest)). rewrite chars_append.
    rewrite findall_float_barrier
      by (now apply sign_not_digit || now apply sign_not_dot).
    rewrite findall_signed_integer; try assumption.
    + rewrite map_app. cbn [map]. unfold chars.
      now rewrite string_of_list_ascii_of_string.
    + destruct ds; [congruence|discriminate].
  - intros s m Hin Hsg.
    pose proof (extract_floats_words s) as Hall.
    rewrite Forall_forall in Hall.
    now apply float_word_sign_dot; [apply float_re_words, Hall|].
Qed.

Lemma extract_floats_unsigned_integer_witness :
  extract_floats "a-12.b" = ["12"%string].
Proof.
  apply (proj1 (extract_floats_unsigned_integer "a" "-" "12" ".b"
                  eq_refl ltac:(discriminate) eq_refl eq_refl)).
Defined.

(** ** Cyclic shifts *)

Section Roll.
Context {A : Type}.

Lemma roll1_nil (k : Z) : roll1 k (@nil A) = [].
Proof. unfold roll1. now rewrite skipn_nil, firstn_nil. Qed.

Lemma roll1_length (k : Z) (l : list A) : length (roll1 k l) = length l.
Proof.
  unfold roll1. rewrite length_app, length_skipn, length_firstn. lia.
Qed.

(** The offset that [roll1] uses lies below the length. *)
Lemma roll_offset_lt (k : Z) (n : nat) :
  0 < n -> Z.to_nat (k mod Z.of_nat (Nat.max n 1)) < n.
Proof.
  intros Hn. rewrite Nat.max_l by lia.
  pose proof (Z.mod_pos_bound k (Z.of_nat n) ltac:(lia)). lia.
Qed.

Lemma roll1_zero_offset (k : Z) (l : list A) :
  (k mod Z.of_nat (Nat.max (length l) 1) = 0)%Z -> roll1 k l = l.
Proof.
  intros Hk. unfold roll1. rewrite Hk. simpl Z.to_nat.
  now rewrite Nat.sub_0_r, skipn_all, firstn_all.
Qed.

(** Shifting back undoes a shift, for every amount. *)
Lemma roll1_opp (k : Z) (l : list A) : roll1 (- k) (roll1 k l) = l.
Proof.
  destruct (Nat.eq_dec (length l) 0) as [Hz|Hnz].
  { apply length_zero_iff_nil in Hz. subst l. now rewrite !roll1_nil. }
  set (N := Z.of_nat (Nat.max (length l) 1)).
  destruct (Z.eq_dec (k mod N) 0) as [Hk|Hk].
  - rewrite (roll1_zero_offset k l) by exact Hk.
    apply roll1_zero_offset. fold N. now apply Z_mod_zero_opp_full.
  - pose proof (roll_offset_lt k (length l) ltac:(lia)) as Ho. fold N in Ho.
    assert (N = Z.of_nat (length l)) as HN by (unfold N; lia).
    pose proof (Z.mod_pos_bound k N ltac:(lia)) as Hb.
    unfold roll1 at 1. rewrite roll1_length. fold N.
    rewrite (Z_mod_nz_opp_full k N Hk).
    set (o := Z.to_nat (k mod N)) in *.
    replace (Z.to_nat (N - k mod N)) with (length l - o) by lia.
    replace (length l - (length l - o)) with o by lia.
    unfold roll1. fold N. fold o.
    assert (length (skipn (length l - o) l) = o) as Hlen
      by (rewrite length_skipn; lia).
    rewrite skipn_app, firstn_app, Hlen, Nat.sub_diag.
    rewrite <- Hlen at 1. rewrite skipn_all.
    rewrite <- Hlen at 2. rewrite firstn_all.
    rewrite skipn_O, firstn_O, app_nil_r. cbn [app].
    apply firstn_skipn.
Qed.

Lemma map_roll1 {B : Type} (f : A -> B) (k : Z) (l : list A) :
  map f (roll1 k l) = roll1 k (map f l).
Proof.
  unfold roll1. now rewrite map_app, skipn_map, firstn_map, length_map.
Qed.

End Roll.

Lemma roll_opp {A : Type} (dy dx : Z) (img : list (list A)) :
  roll (- dy, - dx)%Z (roll (dy, dx) img) = img.
Proof.
  unfold roll. cbn [fst snd].
  rewrite map_roll1, roll1_opp, map_map.
  rewrite (map_ext _ (fun row => row)) by (intros row; apply roll1_opp).
  apply map_id.
Qed.

(** C4.  Shifting an image cyclically by (42, 42) and then by (-42, -42)
    gives the image back, and so does shifting by (-42, -42) first: the
    shift moves the pixel positions bijectively.  This holds for the 2D
    images and for the single-channel images that [data_load] stores. *)
Theorem roll_42_roundtrip (A : Type) (img : list (list A)) :
  roll (-42, -42)%Z (roll (42, 42)%Z img) = img
  /\ roll (42, 42)%Z (roll (-42, -42)%Z img) = img.
Proof.
  split.
  - apply (roll_opp 42 42).
  - apply (roll_opp (-42) (-42)).
Qed.

(** ** split_dataset *)

Lemma slice_index_tail (n : nat) (k : Z) :
  (0 < k <= Z.of_nat n)%Z -> slice_index n (- k) = n - Z.to_nat k.
Proof.
  intros Hk. unfold slice_index.
  replace (- k <? 0)%Z with true by (symmetry; apply Z.ltb_lt; lia). lia.
Qed.

(** X21.  For a dataset of [N] paired samples and [0 < k < N],
    [split_dataset] with [last = k] returns the first [N - k] samples as
    training set and the last [k] as validation set, and training followed
    by validation is the dataset. *)
Theorem split_dataset_sizes (X Y : Type) (x : list X) (y : list Y) (k : Z) :
  length x = length y ->
  (0 < k < Z.of_nat (length x))%Z ->
  let N := length x in
  let '(x_train, y_train, x_val, y_val) := split_dataset x y k in
  x_train = firstn (N - Z.to_nat k) x /\ y_train = firstn (N - Z.to_nat k) y
  /\ x_val = skipn (N - Z.to_nat k) x /\ y_val = skipn (N - Z.to_nat k) y
  /\ length x_train = N - Z.to_nat k /\ length y_train = N - Z.to_nat k
  /\ length x_val = Z.to_nat k /\ length y_val = Z.to_nat k
  /\ x_train ++ x_val = x /\ y_train ++ y_val = y.
Proof.
  intros Hxy Hk N. unfold split_dataset, slice_to, slice_from.
  rewrite <- Hxy. fold N. rewrite slice_index_tail by (unfold N; lia).
  repeat split; try reflexivity.
  - rewrite length_firstn. unfold N. lia.
  - rewrite length_firstn. unfold N. lia.
  - rewrite length_skipn. unfold N. lia.
  - rewrite length_skipn. unfold N. lia.
  - apply firstn_skipn.
  - apply firstn_skipn.
Qed.

Lemma split_dataset_sizes_witness :
  split_dataset [1; 2; 3; 4; 5] [10; 20; 30; 40; 50] 2
  = ([1; 2; 3], [10; 20; 30], [4; 5], [40; 50]).
Proof.
  pose proof (split_dataset_sizes nat nat [1; 2; 3; 4; 5] [10; 20; 30; 40; 50] 2
                eq_refl ltac:(simpl; lia)) as Hs.
  cbv zeta in Hs.
  destruct (split_dataset [1; 2; 3; 4; 5] [10; 20; 30; 40; 50] 2)
    as [[[xt yt] xv] yv].
  destruct Hs as (-> & -> & -> & -> & _). reflexivity.
Defined.

(** C5, where the code goes wrong.  With [last = 0] the slice [x[:-0]] is
    [x[:0]], the empty array, and [x[-0:]] is [x[0:]], everything: the
    training set is empty and the validation set is the whole dataset,
    where the last 0 samples should be the validation set and all [N] the
    training set. *)
Lemma split_dataset_last_zero :
  split_dataset [1; 2; 3] [10; 20; 30] 0 = ([], [], [1; 2; 3], [10; 20; 30])
  /\ ~ (let '(x_train, _, x_val, _) := split_dataset [1; 2; 3] [10; 20; 30] 0 in
        length x_train = 3 - 0 /\ length x_val = 0).
Proof.
  split; [reflexivity|]. cbn. intros [H _]. discriminate.
Qed.

(** ** get_huber_loss *)

Section Huber.
Local Open Scope Q_scope.

Lemma Qltb_lt (a b : Q) : Qltb a b = true <-> a < b.
Proof.
  unfold Qltb. rewrite negb_true_iff. split.
  - intros H. apply Qnot_le_lt. intros Hle.
    apply Qle_bool_iff in Hle. congruence.
  - intros H. destruct (Qle_bool b a) eqn:E; [|reflexivity].
    apply Qle_bool_iff in E. exfalso. exact (Qlt_not_le _ _ H E).
Qed.

Lemma huber_below (delta t p : Q) :
  Qabs (t - p) < delta -> huber delta t p = squared_loss (t - p).
Proof. intros H. unfold huber. apply Qltb_lt in H. now rewrite H. Qed.

Lemma huber_above (delta t p : Q) :
  ~ Qabs (t - p) < delta -> huber delta t p = linear_loss delta (t - p).
Proof.
  intros H. unfold huber.
  destruct (Qltb (Qabs (t - p)) delta) eqn:E; [|reflexivity].
  apply Qltb_lt in E. contradiction.
Qed.

Lemma Qsquare_abs (e : Q) : e * e == Qabs e * Qabs e.
Proof.
  rewrite <- Qabs_Qmult. symmetry. apply Qabs_pos.
  destruct (Qlt_le_dec e 0) as [Hn|Hp].
  - setoid_replace (e * e) with ((- e) * (- e)) by ring.
    apply Qmult_le_0_compat; apply (Qopp_le_compat e 0), Qlt_le_weak, Hn.
  - now apply Qmult_le_0_compat.
Qed.

Lemma huber_branches_meet (delta e : Q) :
  Qabs e == delta -> squared_loss e == linear_loss delta e.
Proof.
  intros H. unfold squared_loss, linear_loss.
  rewrite Qsquare_abs, H. ring.
Qed.

Lemma huber_zero (delta t p : Q) :
  0 < delta -> t - p == 0 -> huber delta t p == 0.
Proof.
  intros Hd He. rewrite huber_below.
  - unfold squared_loss. rewrite He. ring.
  - rewrite He. exact Hd.
Qed.

End Huber.

(** C7.  For a positive threshold, each entry of [get_huber_loss] is half
    the squared error when the absolute error is below the threshold and
    threshold * (absolute error - half the threshold) otherwise; it is 0
    when the error is 0; and where the absolute error equals the threshold
    the two branches have the same value. *)
Theorem get_huber_loss_entries
    (y_true y_pred : list Q) (clip_delta : Q) (i : nat) (t p : Q) :
  (0 < clip_delta)%Q ->
  nth_error y_true i = Some t -> nth_error y_pred i = Some p ->
  exists loss,
    nth_error (get_huber_loss y_true y_pred clip_delta) i = Some loss
    /\ ((Qabs (t - p) < clip_delta)%Q ->
        loss = ((1 # 2) * ((t - p) * (t - p)))%Q)
    /\ (~ (Qabs (t - p) < clip_delta)%Q ->
        loss = (clip_delta * (Qabs (t - p) - (1 # 2) * clip_delta))%Q)
    /\ ((t - p == 0)%Q -> (loss == 0)%Q)
    /\ ((Qabs (t - p) == clip_delta)%Q ->
        (squared_loss (t - p) == linear_loss clip_delta (t - p))%Q).
Proof.
  intros Hd Ht Hp. exists (huber clip_delta t p). split.
  - unfold get_huber_loss.
    apply map_nth_error
      with (f := fun tp => huber clip_delta (fst tp) (snd tp)) (d := (t, p)).
    revert i Ht Hp. revert y_pred.
    induction y_true as [|a l IH]; intros [|b l'] [|i] Ht Hp; try discriminate.
    + simpl in *. congruence.
    + simpl in *. now apply IH.
  - split; [apply huber_below|].
    split; [apply huber_above|].
    split; [now apply huber_zero|apply huber_branches_meet].
Qed.

Lemma get_huber_loss_entries_witness :
  exists loss,
    nth_error (get_huber_loss [(3 # 2)%Q; 5%Q] [1%Q; 2%Q] 1%Q) 1 = Some loss
    /\ (~ (Qabs (5 - 2) < 1)%Q -> loss = (1 * (Qabs (5 - 2) - (1 # 2) * 1))%Q).
Proof.
  destruct (get_huber_loss_entries [(3 # 2)%Q; 5%Q] [1%Q; 2%Q] 1%Q 1 5%Q 2%Q
              eq_refl eq_refl eq_refl) as (loss & Hn & _ & Hlin & _).
  exists loss. split; assumption.
Defined.

(** ** The overlap statistic *)

Section Overlap.
Local Open Scope Q_scope.

Lemma Qle_bool_false (a b : Q) : Qle_bool a b = false -> b <= a.
Proof.
  intros H. apply Qlt_le_weak, Qnot_le_lt. intros Hle.
  apply Qle_bool_iff in Hle. congruence.
Qed.

Lemma Qminb_spec (a b : Q) :
  (Qminb a b = a \/ Qminb a b = b) /\ Qminb a b <= a /\ Qminb a b <= b.
Proof.
  unfold Qminb. destruct (Qle_bool a b) eqn:E.
  - apply Qle_bool_iff in E. repeat split; auto. apply Qle_refl.
  - apply Qle_bool_false in E. repeat split; auto. apply Qle_refl.
Qed.

Lemma Qmaxb_spec (a b : Q) :
  (Qmaxb a b = a \/ Qmaxb a b = b) /\ a <= Qmaxb a b /\ b <= Qmaxb a b.
Proof.
  unfold Qmaxb. destruct (Qle_bool a b) eqn:E.
  - apply Qle_bool_iff in E. repeat split; auto. apply Qle_refl.
  - apply Qle_bool_false in E. repeat split; auto. apply Qle_refl.
Qed.

Lemma fold_min_spec (t : list Q) :
  forall a, In (fold_left Qminb t a) (a :: t)
            /\ forall p, In p (a :: t) -> fold_left Qminb t a <= p.
Proof.
  induction t as [|b t IH]; intros a; cbn [fold_left].
  - split; [now left|]. intros p [<-|[]]. apply Qle_refl.
  - destruct (IH (Qminb a b)) as [Hin Hle].
    destruct (Qminb_spec a b) as (Hab & Ha & Hb). split.
    + destruct Hin as [Hin|Hin]; [|right; now right].
      rewrite <- Hin. destruct Hab as [->| ->]; [now left|right; now left].
    + intros p [<-|[<-|Hp]].
      * eapply Qle_trans; [apply Hle; now left|exact Ha].
      * eapply Qle_trans; [apply Hle; now left|exact Hb].
      * apply Hle. now right.
Qed.

Lemma fold_max_spec (t : list Q) :
  forall a, In (fold_left Qmaxb t a) (a :: t)
            /\ forall p, In p (a :: t) -> p <= fold_left Qmaxb t a.
Proof.
  induction t as [|b t IH]; intros a; cbn [fold_left].
  - split; [now left|]. intros p [<-|[]]. apply Qle_refl.
  - destruct (IH (Qmaxb a b)) as [Hin Hle].
    destruct (Qmaxb_spec a b) as (Hab & Ha & Hb). split.
    + destruct Hin as [Hin|Hin]; [|right; now right].
      rewrite <- Hin. destruct Hab as [->| ->]; [now left|right; now left].
    + intros p [<-|[<-|Hp]].
      * eapply Qle_trans; [exact Ha|apply Hle; now left].
      * eapply Qle_trans; [exact Hb|apply Hle; now left].
      * apply Hle. now right.
Qed.

(** [np.min] and [np.max] of a non-empty array are its least and greatest
    entries. *)
Lemma np_min_max_spec (l : list Q) :
  l <> [] ->
  exists lo hi, np_min l = inr lo /\ np_max l = inr hi
                /\ In lo l /\ In hi l
                /\ forall p, In p l -> lo <= p /\ p <= hi.
Proof.
  destruct l as [|a t]; [congruence|]. intros _.
  destruct (fold_min_spec t a) as [Hlo Hle].
  destruct (fold_max_spec t a) as [Hhi Hge].
  exists (fold_left Qminb t a), (fold_left Qmaxb t a).
  repeat split; auto.
Qed.

Lemma take_in_range {A : Type} (d : A) (l : list A) (idx : list nat) :
  Forall (fun i => (i < length l)%nat) idx ->
  take l idx = inr (map (fun i => nth i l d) idx).
Proof.
  induction 1 as [|i idx Hi _ IH]; [reflexivity|].
  cbn [take map]. rewrite (nth_error_nth' l d Hi), IH. reflexivity.
Qed.

Lemma where_eq_spec (actual : list Q) (val : Q) (i : nat) :
  In i (where_eq actual val) <->
  (i < length actual)%nat /\ nth i actual 0 == val.
Proof.
  unfold where_eq. rewrite filter_In, in_seq, Qeq_bool_iff. intuition lia.
Qed.

Lemma In_insert_sorted (v x : Q) (l : list Q) :
  In x (insert_sorted v l) -> x = v \/ In x l.
Proof.
  induction l as [|a t IH]; simpl.
  - intros [<-|[]]. now left.
  - destruct (Qle_bool v a); simpl; intuition.
Qed.

Lemma In_drop_repeats (x : Q) (l : list Q) :
  In x (drop_repeats l) -> In x l.
Proof.
  induction l as [|a t IH]; [trivial|].
  cbn [drop_repeats]. destruct t as [|b t'].
  - trivial.
  - destruct (Qeq_bool a b).
    + intros H. right. now apply IH.
    + intros [<-|H]; [now left|right; now apply IH].
Qed.

(** Every value of [np.unique(actual)] occurs in [actual]. *)
Lemma In_np_unique (x : Q) (l : list Q) : In x (np_unique l) -> In x l.
Proof.
  unfold np_unique. intros H. apply In_drop_repeats in H.
  induction l as [|a t IH]; [exact H|].
  cbn [fold_right] in H. apply In_insert_sorted in H.
  destruct H as [->|H]; [now left|right; auto].
Qed.


(** What the loop body computes for one of the unique label values. *)
Lemma overlap_of_spec (predictions actual : list Q) (val : Q) :
  length predictions = length actual ->
  In val actual ->
  let mapped := predictions_of predictions actual val in
  exists lo hi,
    np_min mapped = inr lo /\ np_max mapped = inr hi
    /\ In lo mapped /\ In hi mapped
    /\ (forall p, In p mapped -> lo <= p /\ p <= hi)
    /\ overlap_of predictions actual val
       = inr (Qle_bool lo (val + accuracy) && Qle_bool (val - accuracy) hi).
Proof.
  intros Hlen Hin mapped.
  assert (mapped <> []) as Hne.
  { destruct (In_nth _ _ 0 Hin) as (i & Hi & Hnth).
    assert (In i (where_eq actual val)) as Hw
      by (apply where_eq_spec; split; [exact Hi|rewrite Hnth; reflexivity]).
    unfold mapped, predictions_of.
    destruct (where_eq actual val); [contradiction|discriminate]. }
  destruct (np_min_max_spec mapped Hne) as (lo & hi & Hlo & Hhi & Il & Ih & Hb).
  exists lo, hi. repeat split; try assumption; try apply Hb; auto.
  unfold overlap_of.
  rewrite (take_in_range 0).
  - fold (predictions_of predictions actual val). fold mapped.
    cbn [rbind]. rewrite Hlo, Hhi. reflexivity.
  - apply Forall_forall. intros i Hi. apply where_eq_spec in Hi.
    rewrite Hlen. tauto.
Qed.

End Overlap.

Example overlap_example :
  plot_violin_and_statistics [(1 # 2)%Q; (1 # 3)%Q; (1 # 5)%Q]
                             [(1 # 2)%Q; (1 # 4)%Q; (1 # 4)%Q]
  = inr [true; true].
Proof. reflexivity. Qed.

(** ** data_load *)

Section Effects.
Context {G : Type}.

Lemma bind_inr {A B : Type} (m : M G A) (k : A -> M G B) (g : G) (b : B) (g' : G) :
  bind m k g = inr (b, g') ->
  exists a g1, m g = inr (a, g1) /\ k a g1 = inr (b, g').
Proof.
  unfold bind. destruct (m g) as [e|[a g1]]; [discriminate|]. eauto.
Qed.

Lemma lift_inr {A : Type} (r : result A) (g : G) (a : A) (g' : G) :
  lift r g = inr (a, g') -> r = inr a /\ g' = g.
Proof.
  unfold lift. destruct r as [e|a0]; [discriminate|].
  intros [= -> ->]. auto.
Qed.

End Effects.

Section Indexing.
Context {A : Type}.

Lemma take_map (d : A) (l : list A) (idx : list nat) (r : list A) :
  take l idx = inr r -> r = map (fun i => nth i l d) idx.
Proof.
  revert r. induction idx as [|i idx IH]; intros r; cbn [take map].
  - now intros [= <-].
  - destruct (nth_error l i) as [a|] eqn:Hi; [|discriminate].
    destruct (take l idx) as [e|r']; cbn [rbind]; [discriminate|].
    intros [= <-]. rewrite <- (IH r' eq_refl).
    now rewrite (nth_error_nth l i d Hi).
Qed.

Lemma take_length (l : list A) (idx : list nat) (r : list A) :
  take l idx = inr r -> length r = length idx.
Proof.
  revert r. induction idx as [|i idx IH]; intros r; cbn [take].
  - now intros [= <-].
  - destruct (nth_error l i); [|discriminate].
    destruct (take l idx) as [e|r']; cbn [rbind]; [discriminate|].
    intros [= <-]. cbn. now rewrite (IH r' eq_refl).
Qed.

Lemma map_nth_seq (d : A) (l : list A) :
  map (fun i => nth i l d) (seq 0 (length l)) = l.
Proof.
  induction l as [|a l IH]; [reflexivity|].
  cbn [length seq map nth]. f_equal.
  rewrite <- seq_shift, map_map. exact IH.
Qed.

(** Indexing with a permutation of the positions rearranges the list. *)
Lemma take_permutation (l : list A) (idx : list nat) (r : list A) :
  take l idx = inr r -> Permutation idx (seq 0 (length l)) -> Permutation r l.
Proof.
  intros Ht Hp. destruct l as [|d l'].
  - apply Permutation_sym, Permutation_nil in Hp. subst idx.
    cbn in Ht. injection Ht as <-. constructor.
  - rewrite (take_map d _ _ _ Ht).
    eapply Permutation_trans; [apply Permutation_map, Hp|].
    now rewrite map_nth_seq.
Qed.

End Indexing.

Lemma take_combine {A B : Type} (l1 : list A) (l2 : list B) (idx : list nat)
    (x : list A) (y : list B) :
  take l1 idx = inr x -> take l2 idx = inr y ->
  take (combine l1 l2) idx = inr (combine x y).
Proof.
  revert x y. induction idx as [|i idx IH]; intros x y; cbn [take].
  - now intros [= <-] [= <-].
  - destruct (nth_error l1 i) as [a|] eqn:Ha; [|discriminate].
    destruct (nth_error l2 i) as [b|] eqn:Hb; [|discriminate].
    destruct (take l1 idx) as [e|x']; cbn [rbind]; [discriminate|].
    destruct (take l2 idx) as [e|y']; cbn [rbind]; [discriminate|].
    intros [= <-] [= <-].
    assert (nth_error (combine l1 l2) i = Some (a, b)) as ->.
    { clear -Ha Hb. revert l2 i Ha Hb.
      induction l1 as [|a1 l1 IHl]; intros [|b1 l2] [|i] Ha Hb;
        try discriminate; cbn in *; [congruence|now apply IHl]. }
    rewrite (IH x' y' eq_refl eq_refl). reflexivity.
Qed.

Lemma np_array_inr (l r : list array3) : np_array l = inr r -> r = l.
Proof.
  unfold np_array. destruct l as [|a rest]; [now intros [= <-]|].
  match goal with |- context [forallb ?f rest] => destruct (forallb f rest) end;
    [now intros [= <-]|discriminate].
Qed.

Section Loader.
Context {F G : Type} `{FloatText F} `{RandomState G}.
Variable fs : filesystem.
Variables orientation scrambled : bool.

Lemma load_image_inv (tumble : F) (v : locals F) (kv : string * array2)
    (g : G) (v' : locals F) (g' : G) :
  load_image orientation scrambled tumble v kv g = inr (v', g') ->
  exists img,
    transform orientation scrambled (snd kv) g = inr (img, g')
    /\ inputs v' = inputs v ++ triplet img
    /\ outputs v' = outputs v ++ [tumble; tumble; tumble]
    /\ shape v' = Some (fst (shape2 img), snd (shape2 img), 1).
Proof.
  unfold load_image. intros Hb. apply bind_inr in Hb.
  destruct Hb as (img & g1 & Ht & Hr). unfold ret in Hr.
  injection Hr as <- <-. exists img. auto.
Qed.

(** The loop over the keys of one file. *)
Lemma load_images_inv (tumble : F) (fin : h5file) :
  forall (v : locals F) (g : G) (v' : locals F) (g' : G),
    for_each (load_image orientation scrambled tumble) v fin g = inr (v', g') ->
    exists bases,
      Forall2 (fun kv base => transformed orientation scrambled (snd kv) base)
              fin bases
      /\ inputs v' = inputs v ++ flat_map triplet bases
      /\ outputs v' = outputs v ++ flat_map (fun _ => [tumble; tumble; tumble]) fin
      /\ (fin = [] -> shape v' = shape v).
Proof.
  induction fin as [|kv fin IH]; intros v g v' g' Hrun; cbn [for_each] in Hrun.
  - unfold ret in Hrun. injection Hrun as <- <-.
    exists []. cbn. rewrite !app_nil_r. repeat split. constructor.
  - apply bind_inr in Hrun. destruct Hrun as (v1 & g1 & Hstep & Hrest).
    apply load_image_inv in Hstep. destruct Hstep as (img & Ht & Hi & Ho & _).
    destruct (IH _ _ _ _ Hrest) as (bases & Hall & Hi' & Ho' & _).
    exists (img :: bases). split; [|split; [|split]].
    + constructor; [|exact Hall]. exists g, g1. exact Ht.
    + rewrite Hi', Hi. cbn [flat_map]. now rewrite app_assoc.
    + rewrite Ho', Ho. cbn [flat_map]. now rewrite <- app_assoc.
    + discriminate.
Qed.

Lemma load_file_inv (v : locals F) (f : string) (g : G)
    (v' : locals F) (g' : G) :
  load_file fs orientation scrambled v f g = inr (v', g') ->
  exists first rest fin,
    extract_floats f = first :: rest
    /\ h5py_File fs f = Some fin
    /\ for_each (load_image orientation scrambled (float first)) v fin g
       = inr (v', g').
Proof.
  unfold load_file. intros Hb.
  apply bind_inr in Hb. destruct Hb as (first & g1 & Hf & Hb).
  apply lift_inr in Hf. destruct Hf as [Hf ->].
  apply bind_inr in Hb. destruct Hb as (fin & g2 & Ho & Hb).
  apply lift_inr in Ho. destruct Ho as [Ho ->].
  destruct (extract_floats f) as [|s rest]; [discriminate|].
  injection Hf as ->.
  destruct (h5py_File fs f) as [fin'|]; [|discriminate].
  injection Ho as ->. exists first, rest, fin. auto.
Qed.

Lemma Forall2_map_l {A B C : Type} (h : A -> B) (P : B -> C -> Prop)
    (l : list A) (r : list C) :
  Forall2 (fun a c => P (h a) c) l r -> Forall2 P (map h l) r.
Proof. induction 1; cbn; constructor; auto. Qed.

Lemma flat_map_map_l {A B C : Type} (h : A -> B) (k : B -> list C) (l : list A) :
  flat_map k (map h l) = flat_map (fun a => k (h a)) l.
Proof. induction l as [|a l IH]; cbn; [reflexivity|]. now rewrite IH. Qed.

(** The loop over the files: every file has a label and opens, every image
    is transformed, and the two lists grow by three entries per image. *)
Lemma load_files_inv (files : list string) :
  forall (v : locals F) (g : G) (v' : locals F) (g' : G),
    for_each (load_file fs orientation scrambled) v files g = inr (v', g') ->
    exists bases,
      Forall2 (fun pr base => transformed orientation scrambled (snd pr) base)
              (images_read fs files) bases
      /\ inputs v' = inputs v ++ flat_map triplet bases
      /\ outputs v' = outputs v
                      ++ flat_map (fun pr => [label_of (fst pr);
                                              label_of (fst pr);
                                              label_of (fst pr)])
                           (images_read fs files)
      /\ Forall (fun f => extract_floats f <> [] /\ h5py_File fs f <> None) files
      /\ (images_read fs files = [] -> shape v' = shape v).
Proof.
  induction files as [|f files IH]; intros v g v' g' Hrun; cbn [for_each] in Hrun.
  - unfold ret in Hrun. injection Hrun as <- <-.
    exists []. cbn. rewrite !app_nil_r. repeat split; constructor.
  - apply bind_inr in Hrun. destruct Hrun as (v1 & g1 & Hstep & Hrest).
    apply load_file_inv in Hstep.
    destruct Hstep as (first & rest & fin & Hf & Ho & Hloop).
    apply load_images_inv in Hloop.
    destruct Hloop as (b1 & Hall1 & Hi1 & Ho1 & Hs1).
    destruct (IH _ _ _ _ Hrest) as (b2 & Hall2 & Hi2 & Ho2 & Hfiles & Hs2).
    exists (b1 ++ b2). cbn [images_read flat_map]. rewrite Ho.
    split; [|split; [|split; [|split]]].
    + apply Forall2_app; [|exact Hall2]. now apply Forall2_map_l.
    + rewrite Hi2, Hi1, flat_map_app. now rewrite app_assoc.
    + rewrite Ho2, Ho1, flat_map_app, flat_map_map_l. cbn [fst].
      unfold label_of. rewrite Hf. cbn [hd]. now rewrite app_assoc.
    + constructor; [|exact Hfiles]. rewrite Hf, Ho. split; discriminate.
    + intros Hnil. apply app_eq_nil in Hnil. destruct Hnil as [Hn1 Hn2].
      apply map_eq_nil in Hn1. rewrite (Hs2 Hn2). now apply Hs1.
Qed.

Lemma combine_triplets (raws : list (string * array2)) (bases : list array2) :
  length raws = length bases ->
  combine (flat_map triplet bases)
          (flat_map (fun pr => [label_of (fst pr);
                                label_of (fst pr);
                                label_of (fst pr)]) raws)
  = flat_map (fun pb => samples_of (fst (fst pb)) (snd pb)) (combine raws bases).
Proof.
  revert bases. induction raws as [|pr raws IH]; intros [|b bases] Hlen;
    try discriminate; [reflexivity|].
  cbn [flat_map combine]. unfold triplet at 1. unfold samples_of at 1.
  cbn [app combine fst snd]. rewrite IH by (cbn in Hlen; lia). reflexivity.
Qed.

Lemma flat_map_length_3 {A B : Type} (k : A -> list B) (l : list A) :
  (forall a, length (k a) = 3) -> length (flat_map k l) = 3 * length l.
Proof.
  intros Hk. induction l as [|a l IH]; [reflexivity|].
  cbn [flat_map length]. rewrite length_app, Hk, IH. lia.
Qed.

(** What a run of [data_load] that returns has returned. *)
Lemma data_load_inv (alphas densities : list F) (g : G)
    (x : list array3) (y : list F) (shp : nat * nat * nat) (g' : G) :
  data_load fs alphas densities orientation scrambled g = inr (x, y, shp, g') ->
  let raws := images_read fs (matched_files fs alphas densities) in
  exists bases,
    Forall2 (fun pr base => transformed orientation scrambled (snd pr) base)
            raws bases
    /\ Permutation (combine x y)
         (flat_map (fun pb => samples_of (fst (fst pb)) (snd pb))
                   (combine raws bases))
    /\ length x = 3 * length raws /\ length y = 3 * length raws
    /\ Forall (fun f => extract_floats f <> [] /\ h5py_File fs f <> None)
              (matched_files fs alphas densities)
    /\ raws <> [].
Proof.
  intros Hrun raws. unfold data_load in Hrun. cbv zeta in Hrun.
  apply bind_inr in Hrun. destruct Hrun as (v & g1 & Hloop & Hrun).
  apply bind_inr in Hrun. destruct Hrun as (order & g2 & Hord & Hrun).
  apply bind_inr in Hrun. destruct Hrun as (x' & g3 & Hx & Hrun).
  apply lift_inr in Hx. destruct Hx as [Hx ->].
  apply bind_inr in Hrun. destruct Hrun as (y' & g4 & Hy & Hrun).
  apply lift_inr in Hy. destruct Hy as [Hy ->].
  apply bind_inr in Hrun. destruct Hrun as (shp' & g5 & Hshp & Hrun).
  apply lift_inr in Hshp. destruct Hshp as [Hshp _].
  unfold ret in Hrun. injection Hrun as -> -> _ _.
  apply load_files_inv in Hloop.
  destruct Hloop as (bases & Hall & Hi & Ho & Hfiles & Hnone).
  cbn [inputs outputs app] in Hi, Ho. fold raws in Hall, Ho.
  assert (Permutation order (seq 0 (length (outputs v)))) as Hperm.
  { injection Hord as Hord.
    replace order with (fst (permutation (seq 0 (length (outputs v))) g1))
      by now rewrite Hord.
    apply permutation_perm. }
  destruct (np_array (inputs v)) as [e|imgs] eqn:Harr; [discriminate|].
  apply np_array_inr in Harr. subst imgs. cbn [rbind] in Hx.
  assert (length (inputs v) = 3 * length raws) as Hli.
  { rewrite Hi, (Forall2_length Hall). now apply flat_map_length_3. }
  assert (length (outputs v) = 3 * length raws) as Hlo.
  { rewrite Ho. now apply flat_map_length_3. }
  exists bases. split; [exact Hall|]. split; [|split; [|split; [|split]]].
  - rewrite <- combine_triplets by exact (Forall2_length Hall).
    rewrite <- Hi, <- Ho.
    apply (take_permutation _ order); [now apply take_combine|].
    rewrite length_combine, Hli, Hlo, Nat.min_id. now rewrite <- Hlo.
  - rewrite (take_length _ _ _ Hx), (Permutation_length Hperm), length_seq.
    exact Hlo.
  - rewrite (take_length _ _ _ Hy), (Permutation_length Hperm), length_seq.
    exact Hlo.
  - exact Hfiles.
  - intros Hnil. fold raws in Hnone. rewrite (Hnone Hnil) in Hshp. discriminate.
Qed.

End Loader.

Lemma images_read_file (fs : filesystem) (files : list string)
    (pr : string * array2) :
  In pr (images_read fs files) -> In (fst pr) files.
Proof.
  unfold images_read. intros Hin. apply in_flat_map in Hin.
  destruct Hin as (f & Hf & Hin).
  destruct (h5py_File fs f) as [fin|]; [|contradiction].
  apply in_map_iff in Hin. destruct Hin as (kv & <- & _). exact Hf.
Qed.

(** C1.  When [data_load] returns, the image array and the label array have
    the same length, three times the number of images read from the matched
    files; the returned (image, label) pairs are, up to the final shuffle,
    the triplets of the images read: the transformed image and its two
    shifted copies, all three with the label of the file, which is the
    first float that [extract_floats] finds in the file's path.  (A run
    that returns has read at least one image.) *)
Theorem data_load_samples {F G : Type} `{FloatText F} `{RandomState G}
    (fs : filesystem) (alphas densities : list F) (orientation scrambled : bool)
    (g : G) (x : list array3) (y : list F) (shp : nat * nat * nat) (g' : G) :
  data_load fs alphas densities orientation scrambled g = inr (x, y, shp, g') ->
  let raws := images_read fs (matched_files fs alphas densities) in
  length x = length y
  /\ length x = 3 * length raws
  /\ raws <> []
  /\ (exists bases,
         Forall2 (fun pr base => transformed orientation scrambled (snd pr) base)
                 raws bases
         /\ Permutation (combine x y)
              (flat_map (fun pb => samples_of (fst (fst pb)) (snd pb))
                        (combine raws bases)))
  /\ Forall (fun pr => exists first rest,
                 extract_floats (fst pr) = first :: rest
                 /\ label_of (fst pr) = float first) raws.
Proof.
  intros Hrun raws.
  destruct (data_load_inv fs orientation scrambled _ _ _ _ _ _ _ Hrun)
    as (bases & Hall & Hperm & Hx & Hy & Hfiles & Hne).
  fold raws in Hall, Hperm, Hx, Hy, Hne.
  split; [lia|]. split; [exact Hx|]. split; [exact Hne|].
  split; [exists bases; auto|].
  apply Forall_forall. intros pr Hpr. apply images_read_file in Hpr.
  rewrite Forall_forall in Hfiles. destruct (Hfiles _ Hpr) as [Hfl _].
  unfold label_of.
  destruct (extract_floats (fst pr)) as [|first rest]; [congruence|].
  exists first, rest. auto.
Qed.

Lemma data_load_samples_witness :
  exists x y,
    data_load example_fs ["0.125"%string] ["0.3"%string] true false tt
    = inr (x, y, (2, 2, 1), tt)
    /\ length x = 6 /\ y = repeat "0.125"%string 6.
Proof.
  destruct (data_load example_fs ["0.125"%string] ["0.3"%string] true false tt)
    as [e|[[[x y] shp] g']] eqn:Hrun; [vm_compute in Hrun; discriminate|].
  destruct (data_load_samples _ _ _ _ _ _ _ _ _ _ Hrun) as (_ & Hx & _).
  exists x, y. vm_compute in Hrun. injection Hrun as <- <- <- <-.
  repeat split.
Defined.

(** C8 (what the code does).  When no file matches, the loops leave both
    lists empty and never assign [shape]; the [return] statement then reads
    the unbound [shape] and the call raises instead of returning empty
    arrays. *)
Theorem data_load_no_files {F G : Type} `{FloatText F} `{RandomState G}
    (fs : filesystem) (alphas densities : list F) (orientation scrambled : bool)
    (g : G) :
  matched_files fs alphas densities = [] ->
  data_load fs alphas densities orientation scrambled g = inl UnboundLocalError.
Proof.
  intros Hnone. unfold data_load. rewrite Hnone. cbn [for_each].
  unfold bind, ret. cbn [outputs inputs shape length seq].
  pose proof (permutation_perm [] g) as Hp.
  destruct (permutation [] g) as [order g1]. cbn [fst] in Hp.
  apply Permutation_sym, Permutation_nil in Hp. subst order. reflexivity.
Qed.

Lemma data_load_no_files_witness :
  data_load example_fs ["0.250"%string] ["0.3"%string] true false tt
  = inl UnboundLocalError.
Proof. apply data_load_no_files. reflexivity. Defined.

(** ** Pixel values and shapes *)

Section Pixels.
Local Open Scope Q_scope.

Lemma In_roll1 {A : Type} (k : Z) (l : list A) (a : A) :
  In a (roll1 k l) -> In a l.
Proof.
  unfold roll1. intros Hin.
  rewrite <- (firstn_skipn
                (length l - Z.to_nat (k mod Z.of_nat (Nat.max (length l) 1))) l).
  apply in_app_or in Hin. apply in_or_app. tauto.
Qed.

Lemma Forall_roll1 {A : Type} (P : A -> Prop) (k : Z) (l : list A) :
  Forall P l -> Forall P (roll1 k l).
Proof.
  rewrite !Forall_forall. intros Hl a Ha. apply Hl. now apply In_roll1 in Ha.
Qed.

(** A shifted copy has the pixel values of the image. *)
Lemma roll_pixels (vals : list Q) (shift : Z * Z) (img : array3) :
  pixels3_among vals img -> pixels3_among vals (roll shift img).
Proof.
  unfold pixels3_among, roll. intros Himg.
  apply Forall_roll1, Forall_map.
  eapply Forall_impl; [|exact Himg]. intros row. apply Forall_roll1.
Qed.

Lemma reshape_channel_pixels (vals : list Q) (img : array2) :
  pixels_among vals img -> pixels3_among vals (reshape_channel img).
Proof.
  unfold pixels_among, pixels3_among, reshape_channel. intros Himg.
  apply Forall_map. eapply Forall_impl; [|exact Himg].
  intros row Hrow. apply Forall_map. eapply Forall_impl; [|exact Hrow].
  intros p Hp. constructor; [exact Hp|constructor].
Qed.

Lemma triplet_pixels (vals : list Q) (img : array2) :
  pixels_among vals img -> Forall (pixels3_among vals) (triplet img).
Proof.
  intros Himg. apply reshape_channel_pixels in Himg. unfold triplet.
  repeat constructor; try assumption; now apply roll_pixels.
Qed.

Lemma map_pixels (f : Q -> Q) (vals vals' : list Q) (img : array2) :
  (forall p, pixel_among vals p -> pixel_among vals' (f p)) ->
  pixels_among vals img -> pixels_among vals' (map (map f) img).
Proof.
  unfold pixels_among. intros Hf Himg.
  apply Forall_map. eapply Forall_impl; [|exact Himg].
  intros row Hrow. apply Forall_map. eapply Forall_impl; [|exact Hrow]. exact Hf.
Qed.

Lemma pixel_among_cases (vals : list Q) (p : Q) :
  pixel_among vals p <-> exists v, In v vals /\ p == v.
Proof. apply Exists_exists. Qed.

Lemma binarize_pixels (img : array2) :
  pixels_among [0; 1; 2; 3; 4] img -> pixels_among [0; 1] (binarize img).
Proof.
  apply map_pixels. intros p Hp. apply pixel_among_cases.
  destruct (Qle_bool p 0) eqn:Hle.
  - exists 0. split; [now left|].
    apply Qle_bool_iff in Hle. apply pixel_among_cases in Hp.
    destruct Hp as (v & Hv & Hpv). rewrite Hpv in Hle |- *.
    cbn in Hv.
    destruct Hv as [<-|[<-|[<-|[<-|[<-|[]]]]]]; try reflexivity;
      exfalso; revert Hle; apply Qlt_not_le; reflexivity.
  - exists 1. split; [right; now left|reflexivity].
Qed.

Lemma quarter_pixels (img : array2) :
  pixels_among [0; 1; 2; 3; 4] img ->
  pixels_among [0; 1 # 4; 1 # 2; 3 # 4; 1] (quarter img).
Proof.
  apply map_pixels. intros p Hp. apply pixel_among_cases.
  apply pixel_among_cases in Hp. destruct Hp as (v & Hv & Hpv).
  cbn in Hv.
  destruct Hv as [<-|[<-|[<-|[<-|[<-|[]]]]]].
  - exists 0. split; [now left|]. rewrite Hpv. reflexivity.
  - exists (1 # 4). split; [right; now left|]. rewrite Hpv. reflexivity.
  - exists (1 # 2). split; [do 2 right; now left|]. rewrite Hpv. reflexivity.
  - exists (3 # 4). split; [do 3 right; now left|]. rewrite Hpv. reflexivity.
  - exists 1. split; [do 4 right; now left|]. rewrite Hpv. reflexivity.
Qed.

End Pixels.

Section Transform.
Context {G : Type} `{RandomState G}.

Lemma transformed_plain (raw base : array2) :
  transformed false false raw base -> base = binarize raw.
Proof. intros (g & g' & Ht). cbn in Ht. unfold ret in Ht. congruence. Qed.

Lemma transformed_orientation (scrambled : bool) (raw base : array2) :
  transformed true scrambled raw base -> base = quarter raw.
Proof. intros (g & g' & Ht). cbn in Ht. unfold ret in Ht. congruence. Qed.

Lemma shape2_map {A B : Type} (f : list A -> list B) (a : list (list A)) :
  (forall row, length (f row) = length row) ->
  shape2 (map f a) = shape2 a.
Proof.
  intros Hf. unfold shape2. rewrite length_map.
  destruct a as [|row a]; [reflexivity|]. cbn. now rewrite Hf.
Qed.

Lemma shape2_binarize (img : array2) : shape2 (binarize img) = shape2 img.
Proof. apply shape2_map. intros row. apply length_map. Qed.

(** The noise array is 128 x 128. *)
Lemma noise_shape (g : G) :
  shape2 (map (map inject_Z) (fst (randint 1 5 (128, 128) g))) = (128, 128).
Proof.
  rewrite shape2_map by (intros row; apply length_map).
  destruct (randint_shape 1 5 128 128 g) as [Hh Hw].
  unfold shape2. rewrite Hh. f_equal.
  destruct (fst (randint 1 5 (128, 128) g)) as [|row rows]; [discriminate|].
  now inversion Hw.
Qed.

Lemma broadcast_dim_128 (n : nat) :
  broadcast_dim n 128 = if (n =? 128) || (n =? 1) then Some 128 else None.
Proof.
  unfold broadcast_dim.
  destruct (n =? 128) eqn:E1; [apply Nat.eqb_eq in E1; now subst|].
  destruct (n =? 1) eqn:E2; reflexivity.
Qed.

(** The scrambled branch on one image: it goes through exactly for the
    shapes that broadcast against 128 x 128. *)
Lemma transform_scrambled (raw : array2) (g : G) :
  (broadcasts_128 raw = true ->
   exists img, transform false true raw g
               = inr (img, snd (randint 1 5 (128, 128) g)))
  /\ (broadcasts_128 raw = false -> transform false true raw g = inl ValueError).
Proof.
  unfold transform, broadcasts_128. cbn [negb]. unfold bind, lift, ret, np_mul.
  pose proof (noise_shape g) as Hn.
  destruct (randint 1 5 (128, 128) g) as [noise g1]. cbn [fst snd] in *.
  rewrite Hn, shape2_binarize.
  destruct (shape2 raw) as [h w]. rewrite !broadcast_dim_128.
  destruct ((h =? 128) || (h =? 1)), ((w =? 128) || (w =? 1));
    split; intros Hc; try discriminate; eauto.
Qed.

End Transform.

(** C3.  In a run of [data_load] that returns, take any image read whose
    pixel values lie in {0, 1, 2, 3, 4}.  With [orientation = False] and
    [scrambled = False] its three output images are among the returned
    images and all their pixels are 0 or 1; with [orientation = True] its
    three output images are among the returned images and all their pixels
    lie in {0, 0.25, 0.5, 0.75, 1}. *)
Theorem data_load_pixel_values {F G : Type} `{FloatText F} `{RandomState G}
    (fs : filesystem) (alphas densities : list F) (orientation scrambled : bool)
    (g : G) (x : list array3) (y : list F) (shp : nat * nat * nat) (g' : G)
    (f : string) (raw : array2) :
  data_load fs alphas densities orientation scrambled g = inr (x, y, shp, g') ->
  In (f, raw) (images_read fs (matched_files fs alphas densities)) ->
  pixels_among [0; 1; 2; 3; 4]%Q raw ->
  (orientation = false -> scrambled = false ->
   incl (triplet (binarize raw)) x
   /\ Forall (pixels3_among [0; 1]%Q) (triplet (binarize raw)))
  /\ (orientation = true ->
      incl (triplet (quarter raw)) x
      /\ Forall (pixels3_among [0; 1 # 4; 1 # 2; 3 # 4; 1]%Q)
                (triplet (quarter raw))).
Proof.
  intros Hrun Hin Hraw.
  destruct (data_load_inv fs orientation scrambled _ _ _ _ _ _ _ Hrun)
    as (bases & Hall & Hperm & _).
  assert (exists base,
             transformed orientation scrambled raw base
             /\ incl (triplet base) x) as (base & Hbase & Hincl).
  { set (raws := images_read fs (matched_files fs alphas densities)) in *.
    clearbody raws. clear Hrun.
    assert (forall pb, In pb (combine raws bases) ->
                       incl (triplet (snd pb)) x) as Hsub.
    { intros pb Hpb img Himg.
      apply (in_combine_l x y img (label_of (fst (fst pb)))).
      apply (Permutation_in _ (Permutation_sym Hperm)).
      apply in_flat_map. exists pb. split; [exact Hpb|].
      unfold samples_of. unfold triplet in Himg. cbn in Himg |- *.
      intuition (subst; auto). }
    clear Hperm. induction Hall as [|pr b raws bases Hpb Hall IH];
      [contradiction|].
    destruct Hin as [->|Hin].
    - exists b. split; [exact Hpb|]. apply (Hsub ((f, raw), b)). now left.
    - apply IH; [exact Hin|]. intros pb Hpb'. apply Hsub. now right. }
  split.
  - intros -> ->. apply transformed_plain in Hbase. subst base.
    split; [exact Hincl|]. now apply triplet_pixels, binarize_pixels.
  - intros ->. apply transformed_orientation in Hbase. subst base.
    split; [exact Hincl|]. now apply triplet_pixels, quarter_pixels.
Qed.

Lemma data_load_pixel_values_witness :
  exists x,
    incl (triplet (quarter [[0; 1]; [3; 4]]%Q)) x
    /\ Forall (pixels3_among [0; 1 # 4; 1 # 2; 3 # 4; 1]%Q)
              (triplet (quarter [[0; 1]; [3; 4]]%Q)).
Proof.
  destruct (data_load example_fs ["0.125"%string] ["0.3"%string] true false tt)
    as [e|[[[x y] shp] g']] eqn:Hrun; [vm_compute in Hrun; discriminate|].
  exists x.
  refine (proj2 (data_load_pixel_values example_fs _ _ true false tt x y shp g'
                   example_path [[0; 1]; [3; 4]]%Q Hrun _ _) eq_refl).
  - left. reflexivity.
  - repeat constructor; reflexivity.
Defined.

(** C9.  With [orientation = False] and [scrambled = True] the noise array
    has the fixed shape 128 x 128: the transformation of an image goes
    through when each of its two dimensions is 128 or 1, and raises when one
    of them is anything else; a run of [data_load] that reads an image of
    such a shape raises. *)
Theorem scrambled_needs_128 {F G : Type} `{FloatText F} `{RandomState G}
    (raw : array2) (g : G) :
  (broadcasts_128 raw = true ->
   exists img g', transform false true raw g = inr (img, g'))
  /\ (broadcasts_128 raw = false -> transform false true raw g = inl ValueError)
  /\ (forall (fs : filesystem) (alphas densities : list F) (f : string),
         In (f, raw) (images_read fs (matched_files fs alphas densities)) ->
         broadcasts_128 raw = false ->
         exists e, data_load fs alphas densities false true g = inl e).
Proof.
  destruct (transform_scrambled raw g) as [Hok Hbad].
  split; [|split; [exact Hbad|]].
  - intros Hc. destruct (Hok Hc) as (img & Himg). eauto.
  - intros fs alphas densities f Hin Hc.
    destruct (data_load fs alphas densities false true g)
      as [e|[[[x y] shp] g']] eqn:Hrun; [eauto|].
    exfalso.
    destruct (data_load_inv fs false true _ _ _ _ _ _ _ Hrun)
      as (bases & Hall & _).
    set (raws := images_read fs (matched_files fs alphas densities)) in *.
    clearbody raws. clear Hrun.
    induction Hall as [|pr b raws bases Hpb Hall IH]; [contradiction|].
    destruct Hin as [->|Hin]; [|now apply IH].
    destruct Hpb as (g1 & g2 & Ht). cbn [snd] in Ht.
    rewrite (proj2 (transform_scrambled raw g1) Hc) in Ht. discriminate.
Qed.

Lemma scrambled_needs_128_witness :
  transform false true [[0; 1]; [3; 4]]%Q tt = inl ValueError
  /\ exists e,
       data_load example_fs ["0.125"%string] ["0.3"%string] false true tt = inl e.
Proof.
  pose proof (@scrambled_needs_128 string unit _ _ [[0; 1]; [3; 4]]%Q tt)
    as (_ & Hbad & Hload).
  split; [apply Hbad; reflexivity|].
  apply (Hload example_fs _ _ example_path); [left; reflexivity|reflexivity].
Defined.

(** ** Runs of [data_load] that return *)

Section Returns.
Context {F G : Type} `{FloatText F} `{RandomState G}.
Variable fs : filesystem.
Variables orientation scrambled : bool.
Hypothesis no_noise : orientation = true \/ scrambled = false.

Lemma transform_pure (raw : array2) (g : G) :
  transform orientation scrambled raw g
  = inr (if orientation then quarter raw else binarize raw, g).
Proof.
  unfold transform.
  destruct no_noise as [-> | ->]; [reflexivity|].
  destruct orientation; reflexivity.
Qed.

Lemma load_images_run (tumble : F) (fin : h5file) :
  forall (v : locals F) (g : G),
  exists v',
    for_each (load_image orientation scrambled tumble) v fin g = inr (v', g)
    /\ (shape v' = None -> shape v = None /\ fin = []).
Proof.
  induction fin as [|kv fin IH]; intros v g; cbn [for_each].
  - exists v. split; [reflexivity|auto].
  - unfold bind at 1. unfold load_image at 1. unfold bind at 1.
    rewrite transform_pure. unfold ret at 1.
    match goal with |- context [for_each _ ?v1 fin g] =>
      destruct (IH v1 g) as (v' & Hrun & Hshape) end.
    exists v'. split; [exact Hrun|].
    intros Hn. destruct (Hshape Hn) as [Hv _]. discriminate.
Qed.

Lemma load_files_run (files : list string) :
  Forall (fun f => extract_floats f <> [] /\ h5py_File fs f <> None) files ->
  forall (v : locals F) (g : G),
  exists v',
    for_each (load_file fs orientation scrambled) v files g = inr (v', g)
    /\ (shape v' = None -> shape v = None /\ images_read fs files = []).
Proof.
  induction 1 as [|f files [Hf Ho] _ IH]; intros v g; cbn [for_each].
  - exists v. split; [reflexivity|auto].
  - unfold bind at 1. unfold load_file at 1. unfold bind, lift.
    destruct (extract_floats f) as [|first rest]; [congruence|].
    destruct (h5py_File fs f) as [fin|] eqn:Hopen; [|congruence].
    destruct (load_images_run (float first) fin v g) as (v1 & -> & Hs1).
    destruct (IH v1 g) as (v' & Hrun & Hs2).
    exists v'. split; [exact Hrun|].
    intros Hn. destruct (Hs2 Hn) as [Hv1 Hrest].
    destruct (Hs1 Hv1) as [Hv ->]. split; [exact Hv|].
    unfold images_read in *. cbn [flat_map]. now rewrite Hopen, Hrest.
Qed.

Lemma rect_shape2 {A : Type} (h w : nat) (a : list (list A)) :
  rect h w a -> shape2 a = (h, if h =? 0 then 0 else w).
Proof.
  intros [Hh Hw]. unfold shape2. rewrite Hh. f_equal.
  destruct a as [|row a]; cbn in *; [now subst h|].
  subst h. cbn. now inversion Hw.
Qed.

Lemma rect_map {A B : Type} (f : A -> B) (h w : nat) (a : list (list A)) :
  rect h w a -> rect h w (map (map f) a).
Proof.
  intros [Hh Hw]. split; [now rewrite length_map|].
  apply Forall_map. eapply Forall_impl; [|exact Hw].
  intros row Hrow. now rewrite length_map.
Qed.

Lemma rect_roll {A : Type} (shift : Z * Z) (h w : nat) (a : list (list A)) :
  rect h w a -> rect h w (roll shift a).
Proof.
  intros [Hh Hw]. unfold roll. split.
  - now rewrite roll1_length, length_map.
  - apply Forall_roll1, Forall_map. eapply Forall_impl; [|exact Hw].
    intros row Hrow. now rewrite roll1_length.
Qed.

Lemma np_array_uniform (c : nat * nat) (l : list array3) :
  Forall (fun a => shape2 a = c) l -> np_array l = inr l.
Proof.
  intros Hall. unfold np_array. destruct l as [|a rest]; [reflexivity|].
  inversion Hall as [|? ? Ha Hrest]; subst.
  match goal with |- context [forallb ?f rest] =>
    replace (forallb f rest) with true; [reflexivity|] end.
  symmetry. apply forallb_forall. intros b Hb.
  rewrite Forall_forall in Hrest. rewrite (Hrest b Hb).
  destruct (shape2 a) as [h w]. now rewrite !Nat.eqb_refl.
Qed.

Lemma take_total {A : Type} (l : list A) (idx : list nat) :
  Forall (fun i => i < length l) idx -> exists r, take l idx = inr r.
Proof.
  induction 1 as [|i idx Hi _ [r IH]]; [now exists []|].
  cbn [take]. destruct (nth_error l i) as [a|] eqn:Hn.
  - rewrite IH. now exists (a :: r).
  - apply nth_error_None in Hn. lia.
Qed.

(** Without the noise branch, [data_load] returns whenever every matched
    file has a label and opens, at least one image is read and the images
    read share one shape. *)
Lemma data_load_returns (alphas densities : list F) (h w : nat) (g : G) :
  let files := matched_files fs alphas densities in
  Forall (fun f => extract_floats f <> [] /\ h5py_File fs f <> None) files ->
  images_read fs files <> [] ->
  Forall (fun pr => rect h w (snd pr)) (images_read fs files) ->
  exists x y shp g',
    data_load fs alphas densities orientation scrambled g = inr (x, y, shp, g').
Proof.
  intros files Hfiles Hne Hrect.
  destruct (load_files_run files Hfiles
              {| inputs := []; outputs := []; shape := None |} g)
    as (v & Hrun & Hshape).
  destruct (load_files_inv fs orientation scrambled files _ _ _ _ Hrun)
    as (bases & Hall & Hi & Ho & _).
  cbn [inputs outputs app] in Hi, Ho.
  unfold data_load. fold files. cbv zeta. unfold bind at 1. rewrite Hrun.
  unfold bind at 1.
  pose proof (permutation_perm (seq 0 (length (outputs v))) g) as Hperm.
  destruct (permutation (seq 0 (length (outputs v))) g) as [order g1].
  cbn [fst] in Hperm.
  assert (length (inputs v) = length (outputs v)) as Hlen.
  { rewrite Hi, Ho, (flat_map_length_3 triplet) by reflexivity.
    rewrite flat_map_length_3 by reflexivity.
    now rewrite (Forall2_length Hall). }
  assert (Forall (fun i => i < length (outputs v)) order) as Hidx.
  { apply Forall_forall. intros i Hi'.
    apply (Permutation_in _ Hperm), in_seq in Hi'. lia. }
  assert (np_array (inputs v) = inr (inputs v)) as Harr.
  { apply (np_array_uniform (h, if h =? 0 then 0 else w)).
    rewrite Hi. apply Forall_flat_map.
    clear -Hall Hrect no_noise. induction Hall as [|pr b raws bases Hb _ IH];
      [constructor|].
    inversion Hrect as [|? ? Hr Hrest]; subst.
    constructor; [|now apply IH].
    assert (rect h w b) as Hrb.
    { destruct Hb as (g1 & g2 & Ht). rewrite transform_pure in Ht.
      injection Ht as <- _. destruct orientation; now apply rect_map. }
    assert (rect h w (reshape_channel b)) as Hr3 by now apply rect_map.
    unfold triplet. repeat constructor; apply rect_shape2;
      try assumption; now apply rect_roll. }
  destruct (take_total (inputs v) order) as (x & Hx);
    [now rewrite Hlen|].
  destruct (take_total (outputs v) order) as (y & Hy); [exact Hidx|].
  destruct (shape v) as [shp|] eqn:Hs;
    [|destruct (Hshape eq_refl) as [_ Hnil]; contradiction].
  exists x, y, shp, g1.
  unfold bind, lift, ret. rewrite Harr. cbn [rbind]. now rewrite Hx, Hy.
Qed.

End Returns.

(** The paths that [data_load] asks for always carry a label: a path with a
    digit, and so every path ending in [.h5], has a first float. *)
Lemma extract_floats_nonempty (s : string) :
  has_digit (chars s) = true -> extract_floats s <> [].
Proof.
  intros Hd Hnil.
  destruct (findall_float_decomp (chars s)) as (gaps & Hlen & Hcat & Hgaps & _).
  rewrite <- chars_extract_floats, Hnil in Hlen, Hcat. cbn in Hlen, Hcat.
  destruct gaps as [|g0 [|g1 gs]]; try discriminate.
  cbn in Hcat. subst g0. inversion Hgaps as [|? ? Hg _]; subst. congruence.
Qed.

Lemma pattern_has_label {F : Type} `{FloatText F} (alp val : F) :
  extract_floats (pattern alp val) <> [].
Proof.
  apply extract_floats_nonempty. unfold pattern.
  rewrite !chars_append, !has_digit_app.
  replace (has_digit (chars ".h5")) with true by reflexivity.
  now rewrite !orb_true_r.
Qed.

(** [roll1] is the cyclic shift: the entry at position [i] comes from
    position [(i - shift) mod n]. *)
Lemma roll1_nth {A : Type} (d : A) (k : Z) (l : list A) (i : nat) :
  i < length l ->
  nth i (roll1 k l) d
  = nth (Z.to_nat ((Z.of_nat i - k) mod Z.of_nat (length l))) l d.
Proof.
  intros Hi. pose proof (roll_offset_lt k (length l) ltac:(lia)) as Ho.
  unfold roll1. rewrite Nat.max_l in * by lia.
  set (n := length l) in *.
  pose proof (Z.mod_pos_bound k (Z.of_nat n) ltac:(lia)) as Hb.
  rewrite <- Zminus_mod_idemp_r.
  set (o := Z.to_nat (k mod Z.of_nat n)) in *.
  replace (k mod Z.of_nat n)%Z with (Z.of_nat o) by (unfold o; lia).
  assert (length (skipn (n - o) l) = o) as Hlen
    by (rewrite length_skipn; fold n; lia).
  destruct (Nat.lt_ge_cases i o) as [Hlt|Hge].
  - rewrite app_nth1 by lia. rewrite nth_skipn. f_equal.
    replace ((Z.of_nat i - Z.of_nat o) mod Z.of_nat n)%Z
      with (Z.of_nat (n - o + i)); [lia|].
    apply Z.mod_unique with (q := (-1)%Z); lia.
  - rewrite app_nth2 by lia. rewrite Hlen.
    rewrite nth_firstn.
    replace (i - o <? n - o) with true by (symmetry; apply Nat.ltb_lt; lia).
    f_equal. rewrite Z.mod_small; lia.
Qed.

(** ** Sample evaluations *)

Example extract_floats_path :
  extract_floats "no_roll_data/dataset_tumble_0.016_0.15000000000000002.h5"
  = ["0.016"; "0.15000000000000002"; "5"]%string.
Proof. vm_compute. reflexivity. Qed.

Example extract_floats_signed_fraction :
  extract_floats "x=-.5,y=+3.14" = ["-.5"; "+3.14"]%string.
Proof. vm_compute. reflexivity. Qed.

Example extract_floats_chain :
  extract_floats "1.2.3" = ["1.2"; ".3"]%string.
Proof. vm_compute. reflexivity. Qed.

Example extract_floats_trailing_point :
  extract_floats "12-34.5 and 7." = ["12"; "-34.5"; "7"]%string.
Proof. vm_compute. reflexivity. Qed.

Example extract_floats_exponent :
  extract_floats "1e-5" = ["1"; "5"]%string.
Proof. vm_compute. reflexivity. Qed.

Example roll1_by_two : roll1 2 [1; 2; 3; 4; 5] = [4; 5; 1; 2; 3].
Proof. reflexivity. Qed.

Example roll1_by_42 : roll1 42 [1; 2; 3; 4; 5] = [4; 5; 1; 2; 3].
Proof. reflexivity. Qed.

Example roll_image :
  roll (1, 1)%Z [[1; 2; 3]; [4; 5; 6]] = [[6; 4; 5]; [3; 1; 2]].
Proof. reflexivity. Qed.

Example split_dataset_more_than_all :
  split_dataset [1; 2; 3] [4; 5; 6] 2000 = ([], [], [1; 2; 3], [4; 5; 6]).
Proof. reflexivity. Qed.

Example huber_inside : (huber 1 (1 # 2) 0 == 1 # 8)%Q.
Proof. reflexivity. Qed.

Example huber_outside : (huber 1 3 0 == 5 # 2)%Q.
Proof. reflexivity. Qed.

Example data_load_example :
  exists x,
    data_load example_fs ["0.125"%string] ["0.3"%string] false false tt
    = inr (x, repeat "0.125"%string 6, (2, 2, 1), tt)
    /\ nth 5 x [] = [[[0%Q]; [1%Q]]; [[1%Q]; [1%Q]]].
Proof. eexists. split; vm_compute; reflexivity. Qed.

(* ================================================================= *)
(** * Further properties of the code *)

(** ** extract_floats: literals and separators *)

Lemma dot_not_digit (c : ascii) : is_dot c = true -> is_digit c = false.
Proof.
  intros Hd. destruct (is_digit c) eqn:E; [|reflexivity].
  apply digit_not_dot in E. congruence.
Qed.

Lemma dot_not_sign (c : ascii) : is_dot c = true -> is_sign c = false.
Proof.
  intros Hd. destruct (is_sign c) eqn:E; [|reflexivity].
  apply sign_not_dot in E. congruence.
Qed.

Lemma fraction_at_whole (ds fs : Re.str) (d : ascii) :
  forallb is_digit ds = true -> is_dot d = true ->
  fs <> [] -> forallb is_digit fs = true ->
  fraction_at (ds ++ d :: fs) = Some [].
Proof.
  intros Hds Hd Hne Hfs. unfold fraction_at.
  rewrite drop_digits_all by (try assumption; cbn; now apply dot_not_digit).
  destruct fs as [|f fs']; [congruence|].
  cbn [forallb] in Hfs. apply andb_true_iff in Hfs. destruct Hfs as [Hf Hfs'].
  rewrite Hd, Hf. cbn [andb]. f_equal.
  rewrite <- (app_nil_r fs'). now apply drop_digits_all.
Qed.

(** The pattern matches every one of its words entirely. *)
Lemma float_word_whole (w : Re.str) : float_word w -> float_at w = Some [].
Proof.
  intros [(sg & ds & d & fs & -> & Hsg & Hds & Hd & Hne & Hfs)|[Hne Hw]].
  - destruct Hsg as [->|(c & -> & Hc)].
    + cbn [app]. pose proof (fraction_at_whole ds fs d Hds Hd Hne Hfs) as Hfr.
      unfold float_at. destruct (ds ++ d :: fs) as [|c t] eqn:E.
      * destruct ds; discriminate.
      * assert (is_sign c = false) as ->.
        { destruct ds as [|c' ds']; cbn in E; injection E as <- _.
          - now apply dot_not_sign.
          - cbn in Hds. apply andb_true_iff in Hds.
            now apply digit_not_sign, (proj1 Hds). }
        now rewrite Hfr.
    + cbn [app float_at]. rewrite Hc. now apply fraction_at_whole.
  - destruct w as [|c t]; [congruence|].
    cbn [forallb] in Hw. apply andb_true_iff in Hw. destruct Hw as [Hc Ht].
    cbn [float_at]. rewrite (digit_not_sign _ Hc), Hc.
    assert (fraction_at (c :: t) = None) as ->.
    { unfold fraction_at. rewrite <- (app_nil_r (c :: t)).
      rewrite drop_digits_all; [reflexivity| |reflexivity].
      cbn. now rewrite Hc. }
    f_equal. rewrite <- (app_nil_r t). now apply drop_digits_all.
Qed.

(** A text that the pattern matches entirely is the only match in it. *)
Lemma findall_whole (w : Re.str) :
  float_at w = Some [] -> Re.findall float_re w = [w].
Proof.
  intros Hw. destruct w as [|c t]; [discriminate|].
  rewrite findall_cons, match_len_float_re, Hw. cbn [option_map].
  change (length (@nil ascii)) with 0.
  rewrite Nat.sub_0_r, firstn_all. f_equal.
  rewrite Nat.max_r by (cbn [length]; lia).
  now rewrite skipn_all.
Qed.

(** X1.  What [extract_floats] returns is stable: applied to one of the
    strings it returned, it returns that string alone. *)
Theorem extract_floats_idempotent (s m : string) :
  In m (extract_floats s) -> extract_floats m = [m].
Proof.
  intros Hin. pose proof (extract_floats_words s) as Hall.
  rewrite Forall_forall in Hall. specialize (Hall m Hin).
  apply float_re_words, float_word_whole, findall_whole in Hall.
  unfold extract_floats. fold (chars m). rewrite Hall. cbn [map].
  unfold chars. now rewrite string_of_list_ascii_of_string.
Qed.

Lemma extract_floats_idempotent_witness : extract_floats "-34.5" = ["-34.5"%string].
Proof.
  apply (extract_floats_idempotent "12-34.5 and 7." "-34.5").
  vm_compute. right. left. reflexivity.
Defined.

Lemma float_at_plain (c : ascii) (t : Re.str) :
  is_plain c = true -> float_at (c :: t) = None.
Proof.
  unfold is_plain. intros Hp.
  apply andb_true_iff in Hp. destruct Hp as [Hp Hdot].
  apply andb_true_iff in Hp. destruct Hp as [Hdig Hsg].
  apply negb_true_iff in Hdot, Hdig, Hsg.
  cbn [float_at]. rewrite Hsg, Hdig. unfold fraction_at.
  cbn [drop_digits]. rewrite Hdig, Hdot. now destruct t.
Qed.

Lemma findall_plain_cons (c : ascii) (t : Re.str) :
  is_plain c = true -> Re.findall float_re (c :: t) = Re.findall float_re t.
Proof.
  intros Hp. now rewrite findall_cons, match_len_float_re, float_at_plain.
Qed.

(** X2.  A character that is no digit, sign or point separates: the floats
    of [a ++ c ++ b] are the floats of [a] followed by the floats of [b].
    So the numbers of a directory name come before those of the file
    name. *)
Theorem extract_floats_separator (a : string) (c : ascii) (b : string) :
  is_plain c = true ->
  extract_floats (a ++ String c b) = extract_floats a ++ extract_floats b.
Proof.
  intros Hp. unfold extract_floats.
  fold (chars (a ++ String c b)). rewrite chars_append.
  cbn [chars list_ascii_of_string].
  assert (is_digit c = false /\ is_dot c = false) as [Hd Hdot].
  { unfold is_plain in Hp. apply andb_true_iff in Hp. destruct Hp as [Hp Hdot].
    apply andb_true_iff in Hp. destruct Hp as [Hd _].
    now apply negb_true_iff in Hd, Hdot. }
  rewrite findall_float_barrier by assumption.
  rewrite findall_plain_cons by exact Hp. now rewrite map_app.
Qed.

Lemma extract_floats_separator_witness :
  extract_floats "run_7/dataset_tumble_0.125_0.3.h5"
  = (extract_floats "run_7" ++ extract_floats "dataset_tumble_0.125_0.3.h5").
Proof.
  apply (extract_floats_separator "run_7" "/" "dataset_tumble_0.125_0.3.h5").
  reflexivity.
Defined.

Lemma findall_plain_prefix (pre s : Re.str) :
  forallb is_plain pre = true ->
  Re.findall float_re (pre ++ s) = Re.findall float_re s.
Proof.
  induction pre as [|c pre IH]; [reflexivity|]. cbn [forallb app].
  intros Hp. apply andb_true_iff in Hp. destruct Hp as [Hc Hpre].
  rewrite findall_plain_cons by exact Hc. auto.
Qed.

(** X3.  The label that [data_load] reads back from a path it built is the
    three-decimal text of alpha: when [f"{alp:.3f}"] is a float literal,
    the first float of the path is that text, whatever the density. *)
Theorem label_of_pattern {F : Type} `{FloatText F} (alp val : F) :
  is_float_text (format_3f alp) = true ->
  hd_error (extract_floats (pattern alp val)) = Some (format_3f alp)
  /\ label_of (pattern alp val) = float (format_3f alp).
Proof.
  intros Hw. unfold is_float_text in Hw.
  destruct (float_at (chars (format_3f alp))) as [[|c r]|] eqn:Hat;
    try discriminate.
  assert (exists rest, extract_floats (pattern alp val)
                       = format_3f alp :: rest) as [rest Hex].
  { unfold extract_floats, pattern. 
    fold (chars ("no_roll_data/dataset_tumble_" ++ format_3f alp ++ "_"
                   ++ format_default val ++ ".h5")).
    rewrite !chars_append.
    rewrite findall_plain_prefix by reflexivity.
    set (tl := chars (format_default val) ++ chars ".h5").
    change (chars "_" ++ tl) with ("_"%char :: tl).
    destruct (chars (format_3f alp)) as [|c t] eqn:Hc; [discriminate|].
    change ((c :: t) ++ "_"%char :: tl) with (c :: (t ++ "_"%char :: tl)).
    rewrite findall_cons, match_len_float_re.
    change (c :: (t ++ "_"%char :: tl)) with ((c :: t) ++ "_"%char :: tl).
    rewrite float_at_barrier by (reflexivity || discriminate).
    rewrite Hat. cbn [option_map].
    change ([] ++ "_"%char :: tl) with ("_"%char :: tl).
    rewrite length_app.
    replace (length (c :: t) + length ("_"%char :: tl) - length ("_"%char :: tl))
      with (length (c :: t)) by lia.
    rewrite firstn_app, Nat.sub_diag, firstn_all, firstn_O, app_nil_r.
    cbn [map]. rewrite <- Hc. unfold chars.
    rewrite string_of_list_ascii_of_string. eauto. }
  unfold label_of. rewrite Hex. split; reflexivity.
Qed.

Lemma label_of_pattern_witness :
  label_of (pattern "0.016"%string "0.15000000000000002"%string)
  = "0.016"%string.
Proof.
  refine (proj2 (label_of_pattern (H := text_floats) "0.016"%string
                   "0.15000000000000002"%string _)).
  reflexivity.
Defined.

(** ** The augmentation: how cyclic shifts behave *)

Lemma roll1_add {A : Type} (j k : Z) (l : list A) :
  roll1 j (roll1 k l) = roll1 (j + k) l.
Proof.
  destruct l as [|d l'] eqn:El; [now rewrite !roll1_nil|]. rewrite <- El.
  assert (0 < length l) as Hpos by (subst l; cbn; lia).
  apply (nth_ext _ _ d d); [now rewrite !roll1_length|].
  intros i Hi. rewrite !roll1_length in Hi.
  pose proof (Z.mod_pos_bound (Z.of_nat i - j) (Z.of_nat (length l))
                ltac:(lia)) as Hb.
  rewrite roll1_nth by now rewrite roll1_length.
  rewrite roll1_length, roll1_nth by lia.
  rewrite roll1_nth by exact Hi.
  f_equal. f_equal. rewrite Z2Nat.id by lia.
  rewrite Zminus_mod_idemp_l. f_equal. lia.
Qed.

(** X4.  Shifts compose by adding their amounts, on both axes. *)
Theorem roll_compose {A : Type} (a b c d : Z) (img : list (list A)) :
  roll (a, b) (roll (c, d) img) = roll (a + c, b + d)%Z img.
Proof.
  unfold roll. cbn [fst snd].
  rewrite map_roll1, roll1_add, map_map. f_equal.
  apply map_ext. intros row. apply roll1_add.
Qed.

Lemma roll1_permutation {A : Type} (k : Z) (l : list A) :
  Permutation (roll1 k l) l.
Proof.
  unfold roll1.
  set (m := length l - Z.to_nat (k mod Z.of_nat (Nat.max (length l) 1))).
  rewrite <- (firstn_skipn m l) at 3. apply Permutation_app_comm.
Qed.

Lemma concat_rows_permutation {A : Type} (f : list A -> list A)
    (rows : list (list A)) :
  (forall row, Permutation (f row) row) ->
  Permutation (concat (map f rows)) (concat rows).
Proof.
  intros Hf. induction rows as [|row rows IH]; cbn; [constructor|].
  now apply Permutation_app.
Qed.

Lemma concat_permutation {A : Type} (l l' : list (list A)) :
  Permutation l l' -> Permutation (concat l) (concat l').
Proof.
  induction 1 as [|r l l' _ IH|r r' l|l l' l'' _ IH1 _ IH2]; cbn.
  - constructor.
  - now apply Permutation_app_head.
  - rewrite !app_assoc. apply Permutation_app_tail, Permutation_app_comm.
  - now apply Permutation_trans with (concat l').
Qed.

(** X5.  A shifted copy keeps the shape of the image and holds the same
    pixels, each as often as the image does. *)
Theorem roll_keeps_pixels {A : Type} (shift : Z * Z) (h w : nat)
    (img : list (list A)) :
  rect h w img ->
  rect h w (roll shift img)
  /\ Permutation (concat (roll shift img)) (concat img).
Proof.
  intros Hr. split; [now apply rect_roll|].
  unfold roll.
  eapply Permutation_trans.
  - apply concat_permutation, roll1_permutation.
  - apply concat_rows_permutation. intros row. apply roll1_permutation.
Qed.

Lemma roll_keeps_pixels_witness :
  Permutation (concat (roll (42, 42)%Z [[1; 2; 3]; [4; 5; 6]]))
              [1; 2; 3; 4; 5; 6].
Proof.
  apply (proj2 (roll_keeps_pixels (42, 42)%Z 2 3 [[1; 2; 3]; [4; 5; 6]]
                  ltac:(split; [reflexivity|repeat constructor]))).
Defined.

Lemma roll1_multiple {A : Type} (k : Z) (l : list A) :
  (Z.of_nat (length l) | k)%Z -> roll1 k l = l.
Proof.
  intros Hdiv. destruct (Nat.eq_dec (length l) 0) as [Hz|Hnz].
  { apply length_zero_iff_nil in Hz. subst l. apply roll1_nil. }
  apply roll1_zero_offset. rewrite Nat.max_l by lia.
  apply Z.mod_divide; [lia|exact Hdiv].
Qed.

(** X6.  When the height divides the row shift and the width divides the
    column shift, the shifted copy is the image itself: for images whose
    sides divide 42 the first augmented copy repeats the original. *)
Theorem roll_multiple_is_identity {A : Type} (dy dx : Z) (h w : nat)
    (img : list (list A)) :
  rect h w img ->
  (Z.of_nat h | dy)%Z -> (Z.of_nat w | dx)%Z ->
  roll (dy, dx) img = img.
Proof.
  intros [Hh Hw] Hdy Hdx. unfold roll. cbn [fst snd].
  rewrite roll1_multiple by now rewrite length_map, Hh.
  rewrite <- (map_id img) at 2. apply map_ext_Forall.
  eapply Forall_impl; [|exact Hw].
  intros row Hrow. apply roll1_multiple. now rewrite Hrow.
Qed.

Lemma roll_multiple_is_identity_witness :
  roll (42, 42)%Z [[1; 2; 3]; [4; 5; 6]] = [[1; 2; 3]; [4; 5; 6]].
Proof.
  apply (roll_multiple_is_identity 42 42 2 3).
  - split; [reflexivity|repeat constructor].
  - exists 21%Z. reflexivity.
  - exists 14%Z. reflexivity.
Defined.

(** ** split_dataset for every [last] *)

Lemma combine_skipn {A B : Type} (l : list A) (l' : list B) (n : nat) :
  skipn n (combine l l') = combine (skipn n l) (skipn n l').
Proof.
  revert l l'. induction n as [|n IH]; intros [|a l] [|b l']; cbn; auto.
  now destruct (skipn n l).
Qed.

(** X7.  Whatever [last] is (zero, negative or larger than the dataset),
    the two parts are a cut of the dataset at one position: training
    followed by validation is the dataset, for the samples and for the
    labels, and with paired arrays the pairs stay aligned. *)
Theorem split_dataset_cut (X Y : Type) (x : list X) (y : list Y) (last : Z) :
  let '(x_train, y_train, x_val, y_val) := split_dataset x y last in
  x_train ++ x_val = x /\ y_train ++ y_val = y
  /\ (length x = length y ->
      length x_train = length y_train /\ length x_val = length y_val
      /\ combine x_train y_train ++ combine x_val y_val = combine x y).
Proof.
  unfold split_dataset, slice_to, slice_from.
  split; [apply firstn_skipn|]. split; [apply firstn_skipn|].
  intros Hlen. rewrite <- Hlen.
  set (n := slice_index (length x) (- last)).
  split; [|split].
  - rewrite !length_firstn. lia.
  - rewrite !length_skipn. lia.
  - rewrite <- (firstn_skipn n (combine x y)).
    now rewrite combine_firstn, combine_skipn.
Qed.

(** X8.  When [last] is positive and at least the size of the dataset, as
    the default 2000 is for a small dataset, the training set is empty and
    the whole dataset is the validation set. *)
Theorem split_dataset_oversized (X Y : Type) (x : list X) (y : list Y)
    (last : Z) :
  (0 < last)%Z ->
  (Z.of_nat (length x) <= last)%Z -> (Z.of_nat (length y) <= last)%Z ->
  split_dataset x y last = ([], [], x, y).
Proof.
  intros Hpos Hx Hy. unfold split_dataset, slice_to, slice_from, slice_index.
  replace (- last <? 0)%Z with true by (symmetry; apply Z.ltb_lt; lia).
  replace (Z.to_nat (Z.max 0 (- last + Z.of_nat (length x)))) with 0 by lia.
  replace (Z.to_nat (Z.max 0 (- last + Z.of_nat (length y)))) with 0 by lia.
  reflexivity.
Qed.

Lemma split_dataset_oversized_witness :
  split_dataset [1; 2; 3] [4; 5; 6] 2000 = ([], [], [1; 2; 3], [4; 5; 6]).
Proof. apply split_dataset_oversized; cbn; lia. Defined.

(** X9.  A negative [last = -m] cuts from the front: the training set is
    the first [m] samples and the validation set is the rest. *)
Theorem split_dataset_negative (X Y : Type) (x : list X) (y : list Y)
    (m : nat) :
  0 < m ->
  split_dataset x y (- Z.of_nat m)
  = (firstn m x, firstn m y, skipn m x, skipn m y).
Proof.
  intros Hm. unfold split_dataset, slice_to, slice_from, slice_index.
  rewrite Z.opp_involutive.
  replace (Z.of_nat m <? 0)%Z with false by (symmetry; apply Z.ltb_ge; lia).
  rewrite Nat2Z.id.
  assert (forall (A : Type) (l : list A),
             firstn (Nat.min m (length l)) l = firstn m l
             /\ skipn (Nat.min m (length l)) l = skipn m l) as Hcut.
  { intros A l. destruct (Nat.le_gt_cases m (length l)) as [Hle|Hgt].
    - now rewrite Nat.min_l by lia.
    - rewrite Nat.min_r by lia.
      rewrite firstn_all, skipn_all, firstn_all2, skipn_all2 by lia. auto. }
  destruct (Hcut X x) as [-> ->]. destruct (Hcut Y y) as [-> ->]. reflexivity.
Qed.

Lemma split_dataset_negative_witness :
  split_dataset [1; 2; 3] [4; 5; 6] (-1) = ([1], [4], [2; 3], [5; 6]).
Proof. apply (split_dataset_negative nat nat [1; 2; 3] [4; 5; 6] 1). lia. Defined.

(** ** get_huber_loss: sign, symmetry and the quadratic bound *)

Section HuberFacts.
Local Open Scope Q_scope.

Lemma Qltb_false (a b : Q) : Qltb a b = false -> b <= a.
Proof.
  unfold Qltb. rewrite negb_false_iff. apply Qle_bool_iff.
Qed.

Lemma huber_nonneg (delta t p : Q) : 0 <= delta -> 0 <= huber delta t p.
Proof.
  intros Hd. unfold huber.
  pose proof (Qabs_nonneg (t - p)) as Ha.
  destruct (Qltb (Qabs (t - p)) delta) eqn:E.
  - unfold squared_loss. rewrite Qsquare_abs.
    apply Qmult_le_0_compat; [discriminate|now apply Qmult_le_0_compat].
  - apply Qltb_false in E. unfold linear_loss.
    apply Qmult_le_0_compat; [exact Hd|lra].
Qed.

Lemma huber_symmetric (delta t p : Q) : huber delta t p == huber delta p t.
Proof.
  unfold huber, linear_loss, squared_loss. rewrite (Qabs_Qminus t p).
  destruct (Qltb (Qabs (p - t)) delta); [ring|reflexivity].
Qed.

Lemma huber_le_squared (delta t p : Q) :
  huber delta t p <= squared_loss (t - p).
Proof.
  unfold huber. destruct (Qltb (Qabs (t - p)) delta); [apply Qle_refl|].
  unfold linear_loss, squared_loss. rewrite Qsquare_abs.
  set (a := Qabs (t - p)).
  assert (0 <= (a - delta) * (a - delta)) as Hsq.
  { rewrite Qsquare_abs. pose proof (Qabs_nonneg (a - delta)).
    now apply Qmult_le_0_compat. }
  lra.
Qed.

Lemma get_huber_loss_all (P : Q -> Q -> Q -> Prop) (clip_delta : Q) :
  (forall t p, P t p (huber clip_delta t p)) ->
  forall y_true y_pred,
    Forall2 (fun tp loss => P (fst tp) (snd tp) loss)
            (combine y_true y_pred) (get_huber_loss y_true y_pred clip_delta).
Proof.
  intros HP y_true y_pred. unfold get_huber_loss.
  induction (combine y_true y_pred) as [|tp l IH]; cbn; constructor; auto.
Qed.

End HuberFacts.

(** X10.  With a threshold that is not negative no entry of the loss is
    negative. *)
Theorem get_huber_loss_nonneg (y_true y_pred : list Q) (clip_delta : Q) :
  (0 <= clip_delta)%Q ->
  Forall (fun loss => (0 <= loss)%Q) (get_huber_loss y_true y_pred clip_delta).
Proof.
  intros Hd. unfold get_huber_loss. apply Forall_map, Forall_forall.
  intros tp _. now apply huber_nonneg.
Qed.

Lemma get_huber_loss_nonneg_witness :
  Forall (fun loss => (0 <= loss)%Q)
         (get_huber_loss [(3 # 2)%Q; 5%Q] [1%Q; 2%Q] 1%Q).
Proof. apply get_huber_loss_nonneg. discriminate. Defined.

(** X11.  The loss does not depend on which argument is the truth and which
    the prediction: swapping them gives equal entries. *)
Theorem get_huber_loss_symmetric (y_true y_pred : list Q) (clip_delta : Q) :
  Forall2 Qeq (get_huber_loss y_true y_pred clip_delta)
              (get_huber_loss y_pred y_true clip_delta).
Proof.
  unfold get_huber_loss. revert y_pred.
  induction y_true as [|t l IH]; intros [|p l']; cbn; try constructor.
  - apply huber_symmetric.
  - apply IH.
Qed.

(** X12.  Whatever the threshold, an entry of the loss never exceeds half
    the squared error. *)
Theorem get_huber_loss_le_squared (y_true y_pred : list Q) (clip_delta : Q) :
  Forall2 (fun tp loss => (loss <= squared_loss (fst tp - snd tp))%Q)
          (combine y_true y_pred) (get_huber_loss y_true y_pred clip_delta).
Proof.
  apply (get_huber_loss_all
           (fun t p loss => (loss <= squared_loss (t - p))%Q)).
  intros t p. apply huber_le_squared.
Qed.

(** ** The overlap statistic: labels and tolerance *)

Section OverlapFacts.
Local Open Scope Q_scope.


Lemma map_result_length {A B : Type} (f : A -> result B) (l : list A)
    (r : list B) :
  map_result f l = inr r -> length r = length l.
Proof.
  revert r. induction l as [|a t IH]; intros r; cbn [map_result].
  - now intros [= <-].
  - destruct (f a) as [e|b]; cbn [rbind]; [discriminate|].
    destruct (map_result f t) as [e|r']; cbn [rbind]; [discriminate|].
    intros [= <-]. cbn. now rewrite (IH r' eq_refl).
Qed.


Lemma HdRel_insert_sorted (a v : Q) (l : list Q) :
  HdRel Qle a l -> a <= v -> HdRel Qle a (insert_sorted v l).
Proof.
  intros Hl Hv. destruct l as [|b t]; cbn; [now constructor|].
  destruct (Qle_bool v b); constructor; [exact Hv|now inversion Hl].
Qed.

Lemma insert_sorted_sorted (v : Q) (l : list Q) :
  Sorted Qle l -> Sorted Qle (insert_sorted v l).
Proof.
  induction 1 as [|a t Ht IH Hhd]; cbn; [repeat constructor|].
  destruct (Qle_bool v a) eqn:E.
  - apply Qle_bool_iff in E. repeat constructor; assumption.
  - apply Qle_bool_false in E. constructor; [exact IH|].
    now apply HdRel_insert_sorted.
Qed.

Lemma In_insert_sorted_inv (v x : Q) (l : list Q) :
  x = v \/ In x l -> In x (insert_sorted v l).
Proof.
  induction l as [|a t IH]; cbn.
  - intros [->|[]]. now left.
  - destruct (Qle_bool v a); cbn; intuition.
Qed.

Lemma drop_repeats_covers (l : list Q) :
  forall x, In x l -> exists u, In u (drop_repeats l) /\ x == u.
Proof.
  induction l as [|a t IH]; [contradiction|].
  intros x Hin. cbn [drop_repeats]. destruct t as [|b t'].
  - destruct Hin as [<-|[]]. exists a. split; [now left|reflexivity].
  - destruct (Qeq_bool a b) eqn:E.
    + apply Qeq_bool_iff in E. destruct Hin as [<-|Hin]; [|now apply IH].
      destruct (IH b (or_introl eq_refl)) as (u & Hu & Hbu).
      exists u. split; [exact Hu|]. now rewrite E.
    + destruct Hin as [<-|Hin].
      * exists a. split; [now left|reflexivity].
      * destruct (IH x Hin) as (u & Hu & Hxu). exists u.
        split; [now right|exact Hxu].
Qed.

Lemma drop_repeats_sorted (l : list Q) :
  Sorted Qle l -> Sorted Qlt (drop_repeats l).
Proof.
  intros Hs. apply Sorted_StronglySorted in Hs;
    [|intros x y z; apply Qle_trans].
  induction Hs as [|a t Ht IH Hall]; [constructor|].
  cbn [drop_repeats]. destruct t as [|b t']; [repeat constructor|].
  destruct (Qeq_bool a b) eqn:E; [exact IH|].
  constructor; [exact IH|].
  assert (a < b) as Hab.
  { inversion Hall as [|? ? Hle _]; subst.
    apply Qle_lteq in Hle. destruct Hle as [Hlt|Heq]; [exact Hlt|].
    apply Qeq_bool_iff in Heq. congruence. }
  destruct (drop_repeats (b :: t')) as [|c r] eqn:Ed; constructor.
  assert (In c (b :: t')) as Hc
    by (apply In_drop_repeats; rewrite Ed; now left).
  inversion Ht as [|? ? _ Hbt]; subst.
  destruct Hc as [<-|Hc]; [exact Hab|].
  rewrite Forall_forall in Hbt. eapply Qlt_le_trans; [exact Hab|now apply Hbt].
Qed.

End OverlapFacts.



(** X14.  The indicators come one per distinct label, in increasing order
    of the label: the values the loop runs over are strictly increasing,
    all occur in [actual], and every entry of [actual] equals one of them. *)
Theorem overlap_one_per_label (predictions actual : list Q)
    (overlap : list bool) :
  plot_violin_and_statistics predictions actual = inr overlap ->
  length overlap = length (np_unique actual)
  /\ Sorted Qlt (np_unique actual)
  /\ (forall u, In u (np_unique actual) -> In u actual)
  /\ (forall a, In a actual ->
                exists u, In u (np_unique actual) /\ (a == u)%Q).
Proof.
  intros Hrun. split; [now apply map_result_length in Hrun|].
  split; [|split; [intros u; apply In_np_unique|]].
  - unfold np_unique. apply drop_repeats_sorted. clear Hrun.
    induction actual as [|a t IH]; cbn; [constructor|].
    apply insert_sorted_sorted, IH.
  - intros a Ha. unfold np_unique. apply drop_repeats_covers.
    clear Hrun. induction actual as [|b t IH]; [contradiction|].
    cbn [fold_right]. apply In_insert_sorted_inv.
    destruct Ha as [->|Ha]; [now left|right; auto].
Qed.

Lemma overlap_one_per_label_witness :
  length [true; true] = length (np_unique [(1 # 2)%Q; (1 # 4)%Q; (2 # 8)%Q]).
Proof.
  apply (proj1 (overlap_one_per_label
                  [(1 # 2)%Q; (1 # 3)%Q; (1 # 5)%Q]
                  [(1 # 2)%Q; (1 # 4)%Q; (2 # 8)%Q] [true; true] eq_refl)).
Defined.

(** ** data_load: files without images, unreadable files, the shape *)

Section LoaderEdges.
Context {F G : Type} `{FloatText F} `{RandomState G}.
Variable fs : filesystem.
Variables orientation scrambled : bool.

Lemma load_files_no_images (files : list string) (v : locals F) (g : G) :
  Forall (fun f => extract_floats f <> [] /\ h5py_File fs f = Some []) files ->
  for_each (load_file fs orientation scrambled) v files g = inr (v, g).
Proof.
  induction 1 as [|f files [Hf Ho] _ IH]; [reflexivity|].
  cbn [for_each]. unfold bind at 1. unfold load_file at 1. unfold bind, lift.
  destruct (extract_floats f) as [|first rest]; [congruence|].
  rewrite Ho. cbn [for_each]. unfold ret at 1. exact IH.
Qed.

Lemma load_images_last (tumble : F) (fin : h5file) :
  forall (v : locals F) (g : G) (v' : locals F) (g' : G)
         (fin0 : h5file) (kv : string * array2),
    for_each (load_image orientation scrambled tumble) v fin g = inr (v', g') ->
    fin = fin0 ++ [kv] ->
    exists base,
      transformed orientation scrambled (snd kv) base
      /\ shape v' = Some (fst (shape2 base), snd (shape2 base), 1).
Proof.
  induction fin as [|kv1 rest IH]; intros v g v' g' fin0 kv Hrun Hfin.
  - destruct fin0; discriminate.
  - cbn [for_each] in Hrun. apply bind_inr in Hrun.
    destruct Hrun as (v1 & g1 & Hstep & Hrest).
    apply load_image_inv in Hstep. destruct Hstep as (img & Ht & _ & _ & Hs).
    destruct fin0 as [|k fin0'].
    + cbn in Hfin. injection Hfin as -> ->.
      cbn [for_each] in Hrest. unfold ret in Hrest. injection Hrest as <- <-.
      exists img. split; [now exists g, g1|exact Hs].
    + cbn in Hfin. injection Hfin as _ Hrest'.
      exact (IH _ _ _ _ _ _ Hrest Hrest').
Qed.

Lemma load_files_last (files : list string) :
  forall (v : locals F) (g : G) (v' : locals F) (g' : G)
         (rs : list (string * array2)) (pr : string * array2),
    for_each (load_file fs orientation scrambled) v files g = inr (v', g') ->
    images_read fs files = rs ++ [pr] ->
    exists base,
      transformed orientation scrambled (snd pr) base
      /\ shape v' = Some (fst (shape2 base), snd (shape2 base), 1).
Proof.
  induction files as [|f files IH]; intros v g v' g' rs pr Hrun Hread.
  - destruct rs; discriminate.
  - cbn [for_each] in Hrun. apply bind_inr in Hrun.
    destruct Hrun as (v1 & g1 & Hstep & Hrest).
    apply load_file_inv in Hstep.
    destruct Hstep as (first & rest & fin & _ & Ho & Hloop).
    cbn [images_read flat_map] in Hread. rewrite Ho in Hread.
    fold (images_read fs files) in Hread.
    destruct (images_read fs files) as [|p0 ps] eqn:Hims.
    + rewrite app_nil_r in Hread.
      apply map_eq_app in Hread. destruct Hread as (fin0 & l2 & -> & _ & Hl2).
      destruct l2 as [|kv [|? ?]]; try discriminate.
      injection Hl2 as <-.
      destruct (load_images_last _ _ _ _ _ _ _ _ Hloop eq_refl)
        as (base & Hb & Hs).
      destruct (load_files_inv fs orientation scrambled files _ _ _ _ Hrest)
        as (_ & _ & _ & _ & _ & Hsame).
      exists base. split; [exact Hb|]. now rewrite (Hsame Hims).
    + destruct (exists_last (l := p0 :: ps)) as (rs' & pr' & Heq);
        [discriminate|].
      rewrite Heq, app_assoc in Hread.
      apply app_inj_tail in Hread. destruct Hread as [_ ->].
      apply (IH _ _ _ _ rs' pr Hrest). now rewrite <- Heq.
Qed.

End LoaderEdges.

(** X15.  Matched files that hold no dataset are as bad as no files: when
    every matched file opens and has no key, the call raises on the unbound
    [shape]. *)
Theorem data_load_no_images {F G : Type} `{FloatText F} `{RandomState G}
    (fs : filesystem) (alphas densities : list F) (orientation scrambled : bool)
    (g : G) :
  Forall (fun f => extract_floats f <> [] /\ h5py_File fs f = Some [])
         (matched_files fs alphas densities) ->
  data_load fs alphas densities orientation scrambled g = inl UnboundLocalError.
Proof.
  intros Hfiles. unfold data_load. cbv zeta. unfold bind at 1.
  rewrite (load_files_no_images fs orientation scrambled _ _ g Hfiles).
  unfold bind, ret. cbn [outputs inputs shape length seq].
  pose proof (permutation_perm [] g) as Hp.
  destruct (permutation [] g) as [order g1]. cbn [fst] in Hp.
  apply Permutation_sym, Permutation_nil in Hp. subst order. reflexivity.
Qed.

(** X16.  [data_load] never skips a file: when one of the matched files
    cannot be opened, or has no number in its path, the call raises. *)
Theorem data_load_bad_file {F G : Type} `{FloatText F} `{RandomState G}
    (fs : filesystem) (alphas densities : list F) (orientation scrambled : bool)
    (g : G) (f : string) :
  In f (matched_files fs alphas densities) ->
  h5py_File fs f = None \/ extract_floats f = [] ->
  exists e, data_load fs alphas densities orientation scrambled g = inl e.
Proof.
  intros Hin Hbad.
  destruct (data_load fs alphas densities orientation scrambled g)
    as [e|[[[x y] shp] g']] eqn:Hrun; [eauto|].
  exfalso.
  destruct (data_load_inv fs orientation scrambled _ _ _ _ _ _ _ Hrun)
    as (_ & _ & _ & _ & _ & Hfiles & _).
  rewrite Forall_forall in Hfiles. destruct (Hfiles f Hin) as [Hl Ho].
  destruct Hbad; contradiction.
Qed.

(** X17.  The shape that [data_load] returns is the shape of the last image
    it stored, with a channel axis of length 1; without the noise branch
    that is the shape of the last image read. *)
Theorem data_load_shape {F G : Type} `{FloatText F} `{RandomState G}
    (fs : filesystem) (alphas densities : list F) (orientation scrambled : bool)
    (g : G) (x : list array3) (y : list F) (shp : nat * nat * nat) (g' : G)
    (rs : list (string * array2)) (pr : string * array2) :
  data_load fs alphas densities orientation scrambled g = inr (x, y, shp, g') ->
  images_read fs (matched_files fs alphas densities) = rs ++ [pr] ->
  exists base,
    transformed orientation scrambled (snd pr) base
    /\ shp = (fst (shape2 base), snd (shape2 base), 1)
    /\ (orientation = true \/ scrambled = false ->
        shape2 base = shape2 (snd pr)).
Proof.
  intros Hrun Hread. unfold data_load in Hrun. cbv zeta in Hrun.
  apply bind_inr in Hrun. destruct Hrun as (v & g1 & Hloop & Hrun).
  apply bind_inr in Hrun. destruct Hrun as (order & g2 & _ & Hrun).
  apply bind_inr in Hrun. destruct Hrun as (x' & g3 & _ & Hrun).
  apply bind_inr in Hrun. destruct Hrun as (y' & g4 & _ & Hrun).
  apply bind_inr in Hrun. destruct Hrun as (shp' & g5 & Hshp & Hrun).
  apply lift_inr in Hshp. destruct Hshp as [Hshp _].
  unfold ret in Hrun. injection Hrun as _ _ -> _.
  destruct (load_files_last fs orientation scrambled _ _ _ _ _ _ _ Hloop Hread)
    as (base & Hb & Hs).
  rewrite Hs in Hshp. injection Hshp as <-.
  exists base. split; [exact Hb|]. split; [reflexivity|].
  intros Hpure. destruct Hb as (ga & gb & Ht).
  rewrite (transform_pure orientation scrambled Hpure) in Ht.
  injection Ht as <- _.
  destruct orientation; apply shape2_map; intros row; apply length_map.
Qed.

Lemma data_load_no_images_witness :
  data_load {| glob := fun p => [p]; h5py_File := fun _ => Some [] |}
            ["0.125"%string] ["0.3"%string] true false tt
  = inl UnboundLocalError.
Proof.
  apply data_load_no_images. repeat constructor. discriminate.
Defined.

Lemma data_load_bad_file_witness :
  exists e,
    data_load {| glob := fun p => [p]; h5py_File := fun _ => None |}
              ["0.125"%string] ["0.3"%string] true false tt = inl e.
Proof.
  apply (data_load_bad_file _ _ _ true false tt
           "no_roll_data/dataset_tumble_0.125_0.3.h5").
  - left. reflexivity.
  - left. reflexivity.
Defined.

Lemma data_load_shape_witness :
  exists x y shp,
    data_load example_fs ["0.125"%string] ["0.3"%string] true false tt
    = inr (x, y, shp, tt) /\ shp = (2, 2, 1).
Proof.
  destruct (data_load example_fs ["0.125"%string] ["0.3"%string] true false tt)
    as [e|[[[x y] shp] g']] eqn:Hrun; [vm_compute in Hrun; discriminate|].
  destruct (data_load_shape example_fs _ _ true false tt x y shp g'
              [(example_path, [[0; 1]; [3; 4]]%Q)]
              (example_path, [[2; 0]; [0; 1]]%Q) Hrun eq_refl)
    as (base & _ & Hshp & Hsame).
  rewrite (Hsame (or_introl eq_refl)) in Hshp.
  destruct g'. exists x, y, shp. split; [reflexivity|exact Hshp].
Defined.

(** ** The scrambled branch on 128 x 128 images *)

Section Scrambled.
Local Open Scope Q_scope.

Lemma nth_tabulate {A : Type} (f : nat -> A) (n i : nat) (d : A) :
  (i < n)%nat -> nth i (map f (seq 0 n)) d = f i.
Proof.
  intros Hi. rewrite (nth_indep _ d (f 0%nat))
    by (rewrite length_map, length_seq; exact Hi).
  rewrite map_nth, seq_nth by exact Hi. reflexivity.
Qed.

Lemma nth_map_map {A B : Type} (f : A -> B) (da : A) (db : B)
    (a : list (list A)) (i j : nat) :
  (i < length a)%nat -> (j < length (nth i a []))%nat ->
  nth j (nth i (map (map f) a) []) db = f (nth j (nth i a []) da).
Proof.
  intros Hi Hj.
  assert (nth i (map (map f) a) [] = map f (nth i a [])) as ->
    by (rewrite <- (map_nth (map f) a [] i); reflexivity).
  rewrite (nth_indep _ db (f da)) by now rewrite length_map.
  apply map_nth.
Qed.

Lemma rect_row {A : Type} (h w : nat) (a : list (list A)) (i : nat) :
  rect h w a -> (i < h)%nat -> length (nth i a []) = w.
Proof.
  intros [Hh Hw] Hi. rewrite Forall_forall in Hw.
  apply Hw, nth_In. now rewrite Hh.
Qed.

Lemma broadcast_dim_same (n : nat) : broadcast_dim n n = Some n.
Proof. unfold broadcast_dim. now rewrite Nat.eqb_refl. Qed.

(** The product of two arrays of one shape, entry by entry. *)
Lemma np_mul_same_shape (a b : array2) (h w : nat) :
  shape2 a = (h, w) -> shape2 b = (h, w) ->
  exists prod,
    np_mul a b = inr prod /\ rect h w prod
    /\ forall i j, (i < h)%nat -> (j < w)%nat ->
                   entry prod i j = entry a i j * entry b i j.
Proof.
  intros Ha Hb. unfold np_mul. rewrite Ha, Hb, !broadcast_dim_same.
  eexists. split; [reflexivity|]. split; [split|].
  - now rewrite length_map, length_seq.
  - apply Forall_map, Forall_forall. intros i _.
    now rewrite length_map, length_seq.
  - intros i j Hi Hj. unfold entry at 1.
    rewrite (nth_tabulate _ h i []) by exact Hi.
    rewrite (nth_tabulate _ w j 0) by exact Hj.
    assert ((if (h =? 1)%nat then 0%nat else i) = i) as ->.
    { destruct (h =? 1)%nat eqn:E; [|reflexivity].
      apply Nat.eqb_eq in E. lia. }
    assert ((if (w =? 1)%nat then 0%nat else j) = j) as ->.
    { destruct (w =? 1)%nat eqn:E; [|reflexivity].
      apply Nat.eqb_eq in E. lia. }
    reflexivity.
Qed.

End Scrambled.

(** X18.  On a 128 x 128 image the scrambled branch keeps the positions:
    the result is 128 x 128, a pixel that was 0 stays 0, and a pixel that
    was positive becomes one of 0.25, 0.5, 0.75, 1. *)
Theorem scrambled_keeps_positions {G : Type} `{RandomState G}
    (raw : array2) (g : G) (img : array2) (g' : G) :
  rect 128 128 raw ->
  transform false true raw g = inr (img, g') ->
  rect 128 128 img
  /\ forall i j, i < 128 -> j < 128 ->
       ((entry raw i j == 0)%Q -> (entry img i j == 0)%Q)
       /\ ((0 < entry raw i j)%Q ->
           pixel_among [1 # 4; 1 # 2; 3 # 4; 1]%Q (entry img i j)).
Proof.
  intros Hrect Ht. unfold transform in Ht. cbn [negb] in Ht.
  unfold bind, lift, ret in Ht.
  pose proof (noise_shape g) as Hns.
  pose proof (randint_shape 1 5 128 128 g) as [Hnh Hnw].
  pose proof (randint_range 1 5 (128, 128) g ltac:(lia)) as Hrange.
  destruct (randint 1 5 (128, 128) g) as [noise g1]. cbn [fst snd] in *.
  assert (shape2 (binarize raw) = (128, 128)) as Hbs
    by (rewrite shape2_binarize; exact (rect_shape2 128 128 raw Hrect)).
  destruct (np_mul_same_shape _ _ 128 128 Hbs Hns)
    as (prod & Hmul & Hprect & Hentry).
  rewrite Hmul in Ht. injection Ht as <- _.
  split; [now apply rect_map|].
  intros i j Hi Hj.
  assert (i < length raw) as Hi' by (destruct Hrect as [-> _]; exact Hi).
  assert (entry (quarter prod) i j = (entry prod i j / 4)%Q) as ->.
  { unfold entry, quarter.
    apply (nth_map_map (fun p : Q => (p / 4)%Q) 0%Q 0%Q).
    - destruct Hprect as [-> _]. exact Hi.
    - now rewrite (rect_row 128 128 prod i Hprect Hi). }
  rewrite (Hentry i j Hi Hj).
  assert (entry (binarize raw) i j
          = if Qle_bool (entry raw i j) 0 then entry raw i j else 1%Q) as ->.
  { unfold entry, binarize.
    apply (nth_map_map (fun p : Q => if Qle_bool p 0 then p else 1%Q)
             0%Q 0%Q); [exact Hi'|].
    now rewrite (rect_row 128 128 raw i Hrect Hi). }
  assert (exists z, entry (map (map inject_Z) noise) i j = inject_Z z
                    /\ (1 <= z < 5)%Z) as (z & -> & Hz).
  { exists (nth j (nth i noise []) 0%Z).
    assert (length (nth i noise []) = 128) as Hrow
      by (apply (rect_row 128 128 noise i); [split; assumption|exact Hi]).
    split.
    - unfold entry.
      apply (nth_map_map inject_Z 0%Z 0%Q); [now rewrite Hnh|now rewrite Hrow].
    - rewrite Forall_forall in Hrange.
      specialize (Hrange (nth i noise []) ltac:(apply nth_In; now rewrite Hnh)).
      rewrite Forall_forall in Hrange.
      apply Hrange, nth_In. now rewrite Hrow. }
  split.
  - intros Hzero.
    assert (Qle_bool (entry raw i j) 0 = true) as ->
      by (apply Qle_bool_iff; rewrite Hzero; apply Qle_refl).
    rewrite Hzero. unfold Qdiv. ring.
  - intros Hpos.
    assert (Qle_bool (entry raw i j) 0 = false) as ->.
    { destruct (Qle_bool (entry raw i j) 0) eqn:E; [|reflexivity].
      apply Qle_bool_iff in E. exfalso. exact (Qlt_not_le _ _ Hpos E). }
    apply pixel_among_cases.
    assert (z = 1 \/ z = 2 \/ z = 3 \/ z = 4)%Z as [->|[->|[->| ->]]] by lia.
    + exists (1 # 4)%Q. split; [now left|reflexivity].
    + exists (1 # 2)%Q. split; [right; now left|reflexivity].
    + exists (3 # 4)%Q. split; [do 2 right; now left|reflexivity].
    + exists 1%Q. split; [do 3 right; now left|reflexivity].
Qed.

Lemma scrambled_keeps_positions_witness :
  exists img,
    rect 128 128 img
    /\ pixel_among [1 # 4; 1 # 2; 3 # 4; 1]%Q (entry img 5 7).
Proof.
  set (raw := repeat (repeat 2%Q 128) 128).
  assert (rect 128 128 raw) as Hrect.
  { split; [apply repeat_length|]. apply Forall_forall. intros row Hrow.
    apply repeat_spec in Hrow. subst row. apply repeat_length. }
  destruct (proj1 (transform_scrambled raw tt) eq_refl) as (img & Ht).
  destruct (scrambled_keeps_positions raw tt img _ Hrect Ht) as [Hr Hpix].
  exists img. split; [exact Hr|].
  apply (Hpix 5 7); [lia|lia|]. vm_compute. reflexivity.
Defined.

(** ** predict_multi_by_name *)

Section PredictFacts.
Variable load_model : string -> result model.




End PredictFacts.


(** X20.  [predict_multi_by_name] stops at the first model that fails: when
    the models before a name load and predict and that name does not load,
    the loader's error is the result.  Without any model name the
    concatenation raises. *)
Theorem predict_multi_by_name_errors (load_model : string -> result model)
    (before : list string) (name : string) (after : list string)
    (x_val : list array3) (y_val : list Q) (e : exn) :
  Forall (fun n => exists m prediction_T column,
              load_model ("models/" ++ n ++ ".keras")%string = inr m
              /\ m x_val = inr prediction_T
              /\ first_column prediction_T = inr column) before ->
  load_model ("models/" ++ name ++ ".keras")%string = inl e ->
  predict_multi_by_name load_model (before ++ name :: after) x_val y_val
  = inl e
  /\ predict_multi_by_name load_model [] x_val y_val = inl ValueError.
Proof.
  intros Hbefore Hname. split; [|reflexivity].
  unfold predict_multi_by_name.
  assert (forall ps acts,
             predict_each load_model (before ++ name :: after) x_val y_val
                          ps acts = inl e) as Hloop.
  { induction Hbefore as [|n before (m & pT & c & Hm & Hp & Hc) _ IH];
      intros ps acts; cbn [app predict_each].
    - now rewrite Hname.
    - rewrite Hm. cbn [rbind]. rewrite Hp. cbn [rbind]. rewrite Hc.
      cbn [rbind]. apply IH. }
  now rewrite Hloop.
Qed.

Lemma split_dataset_cut_witness :
  combine [1; 2] [4; 5] ++ combine [3] [6] = combine [1; 2; 3] [4; 5; 6].
Proof.
  pose proof (split_dataset_cut nat nat [1; 2; 3] [4; 5; 6] 1) as Hcut.
  cbn in Hcut. destruct Hcut as (_ & _ & Hpairs).
  exact (proj2 (proj2 (Hpairs eq_refl))).
Defined.


Lemma predict_multi_by_name_errors_witness :
  predict_multi_by_name example_models ["cnn"; "missing"; "cnn"]%string
                        [[[[0%Q]]]] [(1 # 2)%Q]
  = inl OSError.
Proof.
  apply (proj1 (predict_multi_by_name_errors example_models
                  ["cnn"%string] "missing"%string ["cnn"%string]
                  [[[[0%Q]]]] [(1 # 2)%Q] OSError
                  ltac:(repeat constructor;
                        exists example_model, [[(1 # 2)%Q]], [(1 # 2)%Q];
                        repeat split)
                  eq_refl)).
Defined.

(** ** The overlap statistic as the code computes it *)

Section LabelPredictions.
Local Open Scope Q_scope.






End LabelPredictions.



(** The label 0.5 with the single prediction 0.5 + 1e-3 as the doubles add
    them: the rounded sum reaches the prediction, so the indicator is
    true. *)
Example overlap_at_rounded_tolerance :
  Doubles.plot_violin_and_statistics (H := grid_rounding)
    [(4512606826625237 # 9007199254740992)%Q] [(1 # 2)%Q]
  = inr [true].
Proof. vm_compute. reflexivity. Qed.
